(** * BusTub storage core: buffer pool, B+tree index, lock manager

    A shallow embedding of the storage and concurrency core of the
    repository (src/buffer, src/storage/index, src/storage/page,
    src/concurrency) together with the properties its specification states.

    Conventions.
    - C++ [int] values ([page_id_t], [frame_id_t], [txn_id_t], pin counts,
      sizes, indices) are integers of [Z]; signed overflow is undefined
      behaviour in C++ and no counter gets near 2^31 in the properties below,
      so the arithmetic is not wrapped.  [size_t] values are [nat].
    - A [T *] into the frame array is the frame index; [nullptr] is [None].
    - A member function becomes a function from the object's state to a
      [result] holding the returned value and the new state.  [UB] stands
      for undefined behaviour of the C++ code (indexing outside an array,
      reading through [nullptr], [front()] of an empty list, a page cast to
      the wrong layout); [Throw] for a C++ exception; [OutOfFuel] is
      returned by the model of a loop or of a recursion when the bound it
      was given on the number of rounds is reached.
    - [std::unordered_map] is a [gmap] where lookups are what matter (its
      iteration order is then the order of [map_to_list]) and an association
      list in iteration order where the order an iteration takes decides
      the outcome. *)

From stdpp Require Import base gmap list strings fin_maps relations.
From Stdlib Require Import ZArith Lia.

Open Scope Z_scope.

(** ** Outcome of a call *)

Inductive result (A : Type) : Type :=
| Ok (a : A)
| UB
| Throw (msg : string)
| OutOfFuel.
Arguments Ok {A} a.
Arguments UB {A}.
Arguments Throw {A} msg.
Arguments OutOfFuel {A}.

#[global] Instance result_ret : MRet result := λ A a, Ok a.
#[global] Instance result_bind : MBind result := λ A B k m,
  match m with
  | Ok a => k a
  | UB => UB
  | Throw s => Throw s
  | OutOfFuel => OutOfFuel
  end.

Definition is_Ok {A} (r : result A) : Prop := ∃ a, r = Ok a.

Abbreviation page_id_t := Z (only parsing).
Abbreviation frame_id_t := Z (only parsing).
Abbreviation txn_id_t := Z (only parsing).

Definition INVALID_PAGE_ID : page_id_t := -1.
Definition HEADER_PAGE_ID : page_id_t := 0.

(** ** LRU replacer (src/buffer/lru_replacer.cpp) *)

Module LRU.

(** [lruList] is the [std::list<frame_id_t>], head = [front()];
    [lruMap] is the key set of the map from frame ids to list nodes: the node
    stored for a frame is the node holding that frame, so erasing
    [lruMap[frame_id]] from the list removes the node of [frame_id]. *)
Record LRUReplacer : Type := mk {
  capacity : nat;
  lruList : list frame_id_t;
  lruMap : gset frame_id_t
}.

(** [LRUReplacer::LRUReplacer(num_pages)] *)
Definition create (num_pages : nat) : LRUReplacer :=
  {| capacity := num_pages; lruList := []; lruMap := ∅ |}.

(** [LRUReplacer::Size] *)
Definition Size (r : LRUReplacer) : nat := length (lruList r).

(** Removal of the list node that holds [f]. *)
Fixpoint erase_node (f : frame_id_t) (l : list frame_id_t) : list frame_id_t :=
  match l with
  | [] => []
  | x :: l' => if decide (x = f) then l' else x :: erase_node f l'
  end.

(** [LRUReplacer::Victim]: [None] is the [false] return. *)
Definition Victim (r : LRUReplacer) : result (option frame_id_t * LRUReplacer) :=
  if decide (lruMap r = ∅) then Ok (None, r)
  else
    match last (lruList r) with
    | None => UB
    | Some f =>
        Ok (Some f, {| capacity := capacity r;
                       lruList := removelast (lruList r);
                       lruMap := lruMap r ∖ {[f]} |})
    end.

(** [LRUReplacer::Pin] *)
Definition Pin (frame_id : frame_id_t) (r : LRUReplacer) : LRUReplacer :=
  if decide (frame_id ∈ lruMap r) then
    {| capacity := capacity r;
       lruList := erase_node frame_id (lruList r);
       lruMap := lruMap r ∖ {[frame_id]} |}
  else r.

(** [LRUReplacer::Unpin] *)
Definition Unpin (frame_id : frame_id_t) (r : LRUReplacer) : result LRUReplacer :=
  if decide (frame_id ∈ lruMap r) then Ok r
  else if decide (capacity r ≤ Size r)%nat then
    match lruList r with
    | [] => UB
    | delId :: rest =>
        Ok {| capacity := capacity r;
              lruList := frame_id :: rest;
              lruMap := {[frame_id]} ∪ (lruMap r ∖ {[delId]}) |}
    end
  else
    Ok {| capacity := capacity r;
          lruList := frame_id :: lruList r;
          lruMap := {[frame_id]} ∪ lruMap r |}.

(** The representation invariant of the two containers. *)
Definition wf (r : LRUReplacer) : Prop :=
  NoDup (lruList r) ∧ ∀ f, f ∈ lruMap r ↔ f ∈ lruList r.

End LRU.

(** ** Disk manager *)

Module Disk.
Section Disk.
Context {Data : Type}.

(** Calls received by the disk manager, oldest first. *)
Inductive Event : Type :=
| EvRead (p : page_id_t)
| EvWrite (p : page_id_t) (d : Data)
| EvAllocate (p : page_id_t)
| EvDeallocate (p : page_id_t).

(** Modelled from the spec: the disk manager is not in src/.  It reads and
    writes a page by id and allocates and deallocates page ids
    ([read_page], [write_page], [allocate_page], [deallocate_page]); page
    ids are handed out from a counter, a page never written reads as
    [blank], and every call is recorded in [log]. *)
Record DiskManager : Type := mk {
  blank : Data;
  pages : gmap page_id_t Data;
  next_page_id : page_id_t;
  log : list Event
}.

Definition content (d : DiskManager) (p : page_id_t) : Data :=
  default (blank d) (pages d !! p).

Definition ReadPage (p : page_id_t) (d : DiskManager) : Data * DiskManager :=
  (content d p,
   {| blank := blank d; pages := pages d; next_page_id := next_page_id d;
      log := log d ++ [EvRead p] |}).

Definition WritePage (p : page_id_t) (x : Data) (d : DiskManager) : DiskManager :=
  {| blank := blank d; pages := <[p := x]> (pages d);
     next_page_id := next_page_id d; log := log d ++ [EvWrite p x] |}.

Definition AllocatePage (d : DiskManager) : page_id_t * DiskManager :=
  (next_page_id d,
   {| blank := blank d; pages := pages d; next_page_id := next_page_id d + 1;
      log := log d ++ [EvAllocate (next_page_id d)] |}).

Definition DeallocatePage (p : page_id_t) (d : DiskManager) : DiskManager :=
  {| blank := blank d; pages := pages d; next_page_id := next_page_id d;
     log := log d ++ [EvDeallocate p] |}.

Definition create (z : Data) : DiskManager :=
  {| blank := z; pages := ∅; next_page_id := 0; log := [] |}.

Definition is_write (e : Event) : bool :=
  match e with EvWrite _ _ => true | _ => false end.
Definition is_allocate (e : Event) : bool :=
  match e with EvAllocate _ => true | _ => false end.
Definition is_deallocate (e : Event) : bool :=
  match e with EvDeallocate _ => true | _ => false end.
Definition written (p : page_id_t) (e : Event) : bool :=
  match e with EvWrite q _ => bool_decide (q = p) | _ => false end.

End Disk.
Arguments Event : clear implicits.
Arguments DiskManager : clear implicits.
End Disk.

(** ** Buffer pool manager (src/buffer/buffer_pool_manager.cpp) *)

Module BPM.
Section BufferPool.
Context {Data : Type}.

(** Modelled from the spec: the [Page] class is not in src/.  A page in the
    pool carries its page id, the byte buffer, the pin count and the dirty
    flag (the latch is left to the concurrency level). *)
Record Page : Type := mkPage {
  page_id_ : page_id_t;
  pin_count_ : Z;
  is_dirty_ : bool;
  data_ : Data
}.

Record BufferPoolManager : Type := mk {
  pool_size_ : nat;
  pages_ : list Page;
  page_table_ : gmap page_id_t frame_id_t;
  free_list_ : list frame_id_t;
  replacer_ : LRU.LRUReplacer;
  disk_manager_ : Disk.DiskManager Data
}.

Definition set_pages (ps : list Page) (b : BufferPoolManager) :=
  mk (pool_size_ b) ps (page_table_ b) (free_list_ b) (replacer_ b) (disk_manager_ b).
Definition set_page_table (pt : gmap page_id_t frame_id_t) (b : BufferPoolManager) :=
  mk (pool_size_ b) (pages_ b) pt (free_list_ b) (replacer_ b) (disk_manager_ b).
Definition set_free_list (fl : list frame_id_t) (b : BufferPoolManager) :=
  mk (pool_size_ b) (pages_ b) (page_table_ b) fl (replacer_ b) (disk_manager_ b).
Definition set_replacer (r : LRU.LRUReplacer) (b : BufferPoolManager) :=
  mk (pool_size_ b) (pages_ b) (page_table_ b) (free_list_ b) r (disk_manager_ b).
Definition set_disk (d : Disk.DiskManager Data) (b : BufferPoolManager) :=
  mk (pool_size_ b) (pages_ b) (page_table_ b) (free_list_ b) (replacer_ b) d.

(** [pages_[frame_id]]: indexing outside the array is undefined. *)
Definition frame (f : frame_id_t) (b : BufferPoolManager) : result Page :=
  if decide (0 ≤ f) then
    match pages_ b !! Z.to_nat f with
    | Some p => Ok p
    | None => UB
    end
  else UB.

(** A write through [&pages_[f]]. *)
Definition set_frame (f : frame_id_t) (p : Page) (b : BufferPoolManager) :=
  set_pages (<[Z.to_nat f := p]> (pages_ b)) b.

(** [BufferPoolManager::BufferPoolManager]: every frame starts in the free
    list, holding no page. *)
Definition create (pool_size : nat) (disk_manager : Disk.DiskManager Data)
  : BufferPoolManager :=
  {| pool_size_ := pool_size;
     pages_ := replicate pool_size
                 (mkPage INVALID_PAGE_ID 0 false (Disk.blank disk_manager));
     page_table_ := ∅;
     free_list_ := Z.of_nat <$> seq 0 pool_size;
     replacer_ := LRU.create pool_size;
     disk_manager_ := disk_manager |}.

(** The loop of [FindReplace] over [page_table_]: the first entry, in
    iteration order, whose frame is [f]; [-1] when there is none. *)
Definition page_of_frame (pt : gmap page_id_t frame_id_t) (f : frame_id_t) : page_id_t :=
  match list_find (λ e : page_id_t * frame_id_t, e.2 = f) (map_to_list pt) with
  | Some (_, e) => e.1
  | None => -1
  end.

(** [BufferPoolManager::FindReplace]: [None] is the [false] return. *)
Definition FindReplace (b : BufferPoolManager)
  : result (option frame_id_t * BufferPoolManager) :=
  match free_list_ b with
  | f :: rest => Ok (Some f, set_free_list rest b)
  | [] =>
      '(v, r) ← LRU.Victim (replacer_ b);
      let b := set_replacer r b in
      match v with
      | Some f =>
          let replacePageId := page_of_frame (page_table_ b) f in
          if decide (replacePageId ≠ -1) then
            replacePage ← frame f b;
            let b :=
              if is_dirty_ replacePage
              then set_disk (Disk.WritePage replacePageId (data_ replacePage)
                               (disk_manager_ b)) b
              else b in
            Ok (Some f, set_page_table (delete replacePageId (page_table_ b)) b)
          else Ok (Some f, b)
      | None => Ok (None, b)
      end
  end.

(** [BufferPoolManager::FetchPageImpl] *)
Definition FetchPageImpl (page_id : page_id_t) (b : BufferPoolManager)
  : result (option frame_id_t * BufferPoolManager) :=
  match page_table_ b !! page_id with
  | Some frame_id =>
      page ← frame frame_id b;
      let b := set_frame frame_id
                 (mkPage (page_id_ page) (pin_count_ page + 1) (is_dirty_ page)
                    (data_ page)) b in
      Ok (Some frame_id, set_replacer (LRU.Pin frame_id (replacer_ b)) b)
  | None =>
      '(fr, b) ← FindReplace b;
      match fr with
      | None => Ok (None, b)
      | Some frame_id =>
          newPage ← frame frame_id b;
          let '(d, dm) := Disk.ReadPage page_id (disk_manager_ b) in
          let b := set_disk dm b in
          let b := set_frame frame_id
                     (mkPage page_id (pin_count_ newPage + 1) false d) b in
          let b := set_replacer (LRU.Pin frame_id (replacer_ b)) b in
          Ok (Some frame_id, set_page_table (<[page_id := frame_id]> (page_table_ b)) b)
      end
  end.

(** [BufferPoolManager::UnpinPageImpl] *)
Definition UnpinPageImpl (page_id : page_id_t) (is_dirty : bool) (b : BufferPoolManager)
  : result (bool * BufferPoolManager) :=
  match page_table_ b !! page_id with
  | None => Ok (false, b)
  | Some frame_id =>
      page ← frame frame_id b;
      if decide (pin_count_ page = 0) then Ok (false, b)
      else
        let b := set_frame frame_id
                   (mkPage (page_id_ page) (pin_count_ page - 1) (is_dirty_ page)
                      (data_ page)) b in
        if decide (pin_count_ page - 1 = 0) then
          r ← LRU.Unpin frame_id (replacer_ b);
          Ok (true, set_replacer r b)
        else Ok (true, b)
  end.

(** [BufferPoolManager::FlushPageImpl] *)
Definition FlushPageImpl (page_id : page_id_t) (b : BufferPoolManager)
  : result (bool * BufferPoolManager) :=
  match page_table_ b !! page_id with
  | None => Ok (false, b)
  | Some frame_id =>
      page ← frame frame_id b;
      let b := set_frame frame_id
                 (mkPage (page_id_ page) (pin_count_ page) false (data_ page)) b in
      Ok (true, set_disk (Disk.WritePage page_id (data_ page) (disk_manager_ b)) b)
  end.

(** [BufferPoolManager::NewPageImpl]: the returned pair is the [*page_id]
    output and the page pointer; [None] is [nullptr] (with [*page_id] left
    as it was). *)
Definition NewPageImpl (b : BufferPoolManager)
  : result (option (page_id_t * frame_id_t) * BufferPoolManager) :=
  let '(newPageId, dm) := Disk.AllocatePage (disk_manager_ b) in
  let b := set_disk dm b in
  '(fr, b) ← FindReplace b;
  match fr with
  | None => Ok (None, b)
  | Some frame_id =>
      newPage ← frame frame_id b;
      let b := set_frame frame_id
                 (mkPage newPageId (pin_count_ newPage + 1) true (data_ newPage)) b in
      let b := set_replacer (LRU.Pin frame_id (replacer_ b)) b in
      Ok (Some (newPageId, frame_id),
          set_page_table (<[newPageId := frame_id]> (page_table_ b)) b)
  end.

(** [BufferPoolManager::DeletePageImpl] *)
Definition DeletePageImpl (page_id : page_id_t) (b : BufferPoolManager)
  : result (bool * BufferPoolManager) :=
  match page_table_ b !! page_id with
  | None =>
      Ok (true, set_disk (Disk.DeallocatePage page_id (disk_manager_ b)) b)
  | Some frame_id =>
      page ← frame frame_id b;
      if decide (0 < pin_count_ page) then Ok (false, b)
      else
        let b := set_page_table (delete page_id (page_table_ b)) b in
        let b := set_disk (Disk.DeallocatePage page_id (disk_manager_ b)) b in
        Ok (true, set_free_list (free_list_ b ++ [frame_id]) b)
  end.

(** [BufferPoolManager::FlushAllPagesImpl]: the body is empty. *)
Definition FlushAllPagesImpl (b : BufferPoolManager) : BufferPoolManager := b.

(** The page [p] as the pool's clients see it: the buffer of its frame when
    it is mapped, what the disk holds otherwise. *)
Definition view (b : BufferPoolManager) (p : page_id_t) : Data :=
  match page_table_ b !! p with
  | Some f =>
      match pages_ b !! Z.to_nat f with
      | Some pg => data_ pg
      | None => Disk.content (disk_manager_ b) p
      end
  | None => Disk.content (disk_manager_ b) p
  end.

(** The dirty bit of the mapped page [p]. *)
Definition dirty (b : BufferPoolManager) (p : page_id_t) : option bool :=
  f ← page_table_ b !! p; pg ← pages_ b !! Z.to_nat f; Some (is_dirty_ pg).

(** The pin count of the mapped page [p]. *)
Definition pins (b : BufferPoolManager) (p : page_id_t) : option Z :=
  f ← page_table_ b !! p; pg ← pages_ b !! Z.to_nat f; Some (pin_count_ pg).

(** The frames a fetch can take: the free ones and the ones the replacer
    tracks. *)
Definition avail (b : BufferPoolManager) : nat :=
  (length (free_list_ b) + length (LRU.lruList (replacer_ b)))%nat.

Definition in_range (b : BufferPoolManager) (f : frame_id_t) : Prop :=
  0 ≤ f ∧ (Z.to_nat f < length (pages_ b))%nat.

(** A consistent pool: the page table maps pages to distinct frames of
    the array and does not map [INVALID_PAGE_ID]; the free frames are frames
    of the array that hold no page; the replacer is well formed, with room
    for one frame at least, and tracks frames of the array that are not
    free; and a mapped page whose dirty bit is clear has in its frame what
    the disk holds. *)
Record pool_inv (b : BufferPoolManager) : Prop := {
  inv_mapped : ∀ p f, page_table_ b !! p = Some f → in_range b f;
  inv_inj : ∀ p q f, page_table_ b !! p = Some f → page_table_ b !! q = Some f → p = q;
  inv_invalid : page_table_ b !! INVALID_PAGE_ID = None;
  inv_free : ∀ f, f ∈ free_list_ b → in_range b f ∧ ∀ p, page_table_ b !! p ≠ Some f;
  inv_free_nodup : NoDup (free_list_ b);
  inv_replacer : LRU.wf (replacer_ b);
  inv_capacity : (0 < LRU.capacity (replacer_ b))%nat;
  inv_tracked : ∀ f, f ∈ LRU.lruList (replacer_ b) → in_range b f ∧ f ∉ free_list_ b;
  inv_clean : ∀ p f pg,
    page_table_ b !! p = Some f → pages_ b !! Z.to_nat f = Some pg →
    is_dirty_ pg = false → data_ pg = Disk.content (disk_manager_ b) p
}.

End BufferPool.
Arguments Page : clear implicits.
Arguments BufferPoolManager : clear implicits.
End BPM.

(** ** Maps in iteration order *)

(** A [std::unordered_map] that the code iterates: the entries in the order
    the iteration visits them, one entry per key. *)
Module AList.
Section AList.
Context {K V : Type} `{EqDecision K}.

Fixpoint find (k : K) (m : list (K * V)) : option V :=
  match m with
  | [] => None
  | (k', v) :: m' => if decide (k' = k) then Some v else find k m'
  end.

(** [m.count(k) != 0] *)
Definition mem (k : K) (m : list (K * V)) : bool :=
  match find k m with Some _ => true | None => false end.

(** The value read by [m[k]], [d] being the value-initialised [V]. *)
Definition get (d : V) (k : K) (m : list (K * V)) : V := default d (find k m).

(** The map after evaluating [m[k]]: a missing key is added. *)
Definition touch (d : V) (k : K) (m : list (K * V)) : list (K * V) :=
  if mem k m then m else m ++ [(k, d)].

(** [m[k] = v] *)
Fixpoint set (k : K) (v : V) (m : list (K * V)) : list (K * V) :=
  match m with
  | [] => [(k, v)]
  | (k', v') :: m' => if decide (k' = k) then (k, v) :: m' else (k', v') :: set k v m'
  end.

(** [m.erase(k)] *)
Fixpoint erase (k : K) (m : list (K * V)) : list (K * V) :=
  match m with
  | [] => []
  | (k', v') :: m' => if decide (k' = k) then m' else (k', v') :: erase k m'
  end.

Definition keys (m : list (K * V)) : list K := m.*1.

End AList.
End AList.

(** Modelled from the spec: [RID] is not in src/; it is the physical
    (page id, slot) address of a tuple. *)
Definition RID : Type := page_id_t * Z.

(** ** Lock manager (src/concurrency/lock_manager.cpp) *)

Module Lock.

Inductive LockMode : Type := SHARED | EXCLUSIVE.
Inductive TransactionState : Type := GROWING | SHRINKING | COMMITTED | ABORTED.
Inductive IsolationLevel : Type := READ_UNCOMMITTED | REPEATABLE_READ | READ_COMMITTED.
Inductive AbortReason : Type :=
| LOCK_ON_SHRINKING | UPGRADE_CONFLICT | DEADLOCK | LOCKSHARED_ON_READ_UNCOMMITTED.

#[global] Instance LockMode_eq_dec : EqDecision LockMode.
Proof. solve_decision. Defined.
#[global] Instance TransactionState_eq_dec : EqDecision TransactionState.
Proof. solve_decision. Defined.
#[global] Instance IsolationLevel_eq_dec : EqDecision IsolationLevel.
Proof. solve_decision. Defined.

Record LockRequest : Type := mkRequest {
  txn_id_ : txn_id_t;
  lock_mode_ : LockMode;
  granted_ : bool
}.

(** [cv_] counts the [notify_all] calls on the condition variable. *)
Record LockRequestQueue : Type := mkQueue {
  request_queue_ : list LockRequest;
  cv_ : nat;
  reading_count_ : Z;
  is_writting_ : bool
}.

(** [LockRequestQueue()] *)
Definition empty_queue : LockRequestQueue := mkQueue [] 0 0 false.

(** Modelled from the spec: the [Transaction] class is not in src/.  A
    transaction carries its 2PL state, its isolation level and the sets of
    record ids it holds in shared and in exclusive mode. *)
Record Transaction : Type := mkTxn {
  state_ : TransactionState;
  isolation_level_ : IsolationLevel;
  shared_lock_set_ : gset RID;
  exclusive_lock_set_ : gset RID
}.

Definition SetState (s : TransactionState) (t : Transaction) : Transaction :=
  mkTxn s (isolation_level_ t) (shared_lock_set_ t) (exclusive_lock_set_ t).
Definition set_shared (x : gset RID) (t : Transaction) : Transaction :=
  mkTxn (state_ t) (isolation_level_ t) x (exclusive_lock_set_ t).
Definition set_exclusive (x : gset RID) (t : Transaction) : Transaction :=
  mkTxn (state_ t) (isolation_level_ t) (shared_lock_set_ t) x.

(** The lock manager together with the transactions its callers pass in: a
    [Transaction *] is the transaction id, [txn_map] is the table of live
    transactions that [TransactionManager::GetTransaction] reads. *)
Record LockManager : Type := mk {
  lock_table_ : list (RID * LockRequestQueue);
  waits_for_ : list (txn_id_t * list txn_id_t);
  txn_map : gmap txn_id_t Transaction
}.

Definition set_lock_table (lt : list (RID * LockRequestQueue)) (m : LockManager) :=
  mk lt (waits_for_ m) (txn_map m).
Definition set_waits_for (g : list (txn_id_t * list txn_id_t)) (m : LockManager) :=
  mk (lock_table_ m) g (txn_map m).
Definition set_txn (t : txn_id_t) (x : Transaction) (m : LockManager) :=
  mk (lock_table_ m) (waits_for_ m) (<[t := x]> (txn_map m)).

(** [lock_table_[rid]] read, and [lock_table_[rid]] updated by [f]. *)
Definition queue (rid : RID) (m : LockManager) : LockRequestQueue :=
  AList.get empty_queue rid (lock_table_ m).
Definition on_queue (rid : RID) (f : LockRequestQueue → LockRequestQueue)
    (m : LockManager) : LockManager :=
  set_lock_table (AList.set rid (f (queue rid m)) (lock_table_ m)) m.

Definition set_requests (q : list LockRequest) (x : LockRequestQueue) :=
  mkQueue q (cv_ x) (reading_count_ x) (is_writting_ x).
Definition notify_all (x : LockRequestQueue) :=
  mkQueue (request_queue_ x) (S (cv_ x)) (reading_count_ x) (is_writting_ x).
Definition set_reading_count (n : Z) (x : LockRequestQueue) :=
  mkQueue (request_queue_ x) (cv_ x) n (is_writting_ x).
Definition set_is_writting (w : bool) (x : LockRequestQueue) :=
  mkQueue (request_queue_ x) (cv_ x) (reading_count_ x) w.

(** What a call of a locking function comes to.  [Waiting]: the caller is
    blocked in [cv_.wait]; it goes on with the [_resume] function once the
    condition it waits for holds.  [Aborted]: a
    [TransactionAbortException] with that reason was thrown. *)
Inductive Outcome : Type :=
| Returned (r : bool)
| Waiting
| Aborted (reason : AbortReason).

(** [LockManager::LockPrepare]: [None] is the normal return. *)
Definition LockPrepare (t : txn_id_t) (txn : Transaction) (rid : RID) (m : LockManager)
  : option AbortReason * LockManager :=
  if decide (isolation_level_ txn ≠ READ_UNCOMMITTED ∧ state_ txn = SHRINKING) then
    (Some LOCK_ON_SHRINKING, set_txn t (SetState ABORTED txn) m)
  else
    (None, set_lock_table (AList.touch empty_queue rid (lock_table_ m)) m).

(** The loop that marks the first request of [t] in mode [mode] granted. *)
Fixpoint grant (t : txn_id_t) (mode : LockMode) (q : list LockRequest) : list LockRequest :=
  match q with
  | [] => []
  | r :: q' =>
      if decide (txn_id_ r = t ∧ lock_mode_ r = mode)
      then mkRequest (txn_id_ r) (lock_mode_ r) true :: q'
      else r :: grant t mode q'
  end.

(** The loop that erases every request of [t] from a request list. *)
Definition erase_requests (t : txn_id_t) (q : list LockRequest) : list LockRequest :=
  filter (λ r, txn_id_ r ≠ t) q.

(** [LockManager::LockShared] after the wait. *)
Definition LockShared_resume (t : txn_id_t) (rid : RID) (m : LockManager)
  : result (Outcome * LockManager) :=
  match txn_map m !! t with
  | None => UB
  | Some txn =>
      if decide (state_ txn = ABORTED) then Ok (Aborted DEADLOCK, m)
      else
        let m := on_queue rid (λ q, set_reading_count (reading_count_ q + 1) q) m in
        let m := on_queue rid (λ q, set_requests (grant t SHARED (request_queue_ q)) q) m in
        Ok (Returned true,
            set_txn t (set_shared ({[rid]} ∪ shared_lock_set_ txn) txn) m)
  end.

(** [LockManager::LockShared] *)
Definition LockShared (t : txn_id_t) (rid : RID) (m : LockManager)
  : result (Outcome * LockManager) :=
  match txn_map m !! t with
  | None => UB
  | Some txn =>
      if decide (isolation_level_ txn = READ_UNCOMMITTED) then
        Ok (Aborted LOCKSHARED_ON_READ_UNCOMMITTED, set_txn t (SetState ABORTED txn) m)
      else
        match LockPrepare t txn rid m with
        | (Some reason, m) => Ok (Aborted reason, m)
        | (None, m) =>
            let m := on_queue rid (λ q,
                       set_requests (request_queue_ q ++ [mkRequest t SHARED false]) q) m in
            if is_writting_ (queue rid m) then Ok (Waiting, m)
            else LockShared_resume t rid m
        end
  end.

(** [LockManager::LockExclusive] after the wait. *)
Definition LockExclusive_resume (t : txn_id_t) (rid : RID) (m : LockManager)
  : result (Outcome * LockManager) :=
  match txn_map m !! t with
  | None => UB
  | Some txn =>
      if decide (state_ txn = ABORTED) then Ok (Aborted DEADLOCK, m)
      else
        let m := on_queue rid (set_is_writting true) m in
        let m := on_queue rid (λ q, set_requests (grant t EXCLUSIVE (request_queue_ q)) q) m in
        Ok (Returned true,
            set_txn t (set_exclusive ({[rid]} ∪ exclusive_lock_set_ txn) txn) m)
  end.

(** [LockManager::LockExclusive] *)
Definition LockExclusive (t : txn_id_t) (rid : RID) (m : LockManager)
  : result (Outcome * LockManager) :=
  match txn_map m !! t with
  | None => UB
  | Some txn =>
      match LockPrepare t txn rid m with
      | (Some reason, m) => Ok (Aborted reason, m)
      | (None, m) =>
          let m := on_queue rid (λ q,
                     set_requests (request_queue_ q ++ [mkRequest t EXCLUSIVE false]) q) m in
          if is_writting_ (queue rid m) || bool_decide (0 < reading_count_ (queue rid m))
          then Ok (Waiting, m)
          else LockExclusive_resume t rid m
      end
  end.

(** [LockManager::Unlock].  [lock_request_list] is a copy of the request
    queue ([auto], not [auto &]); the erasing loop runs on the copy, which is
    dropped when the function returns. *)
Definition Unlock (t : txn_id_t) (rid : RID) (m : LockManager)
  : result (bool * LockManager) :=
  match txn_map m !! t with
  | None => UB
  | Some txn =>
      let m := set_lock_table (AList.touch empty_queue rid (lock_table_ m)) m in
      let lock_request_list := request_queue_ (queue rid m) in
      let '(txn, m) :=
        if decide (rid ∈ shared_lock_set_ txn) then
          (set_shared (shared_lock_set_ txn ∖ {[rid]}) txn,
           on_queue rid (λ q, set_reading_count (reading_count_ q - 1) q) m)
        else (txn, m) in
      let '(txn, m) :=
        if decide (rid ∈ exclusive_lock_set_ txn) then
          (set_exclusive (exclusive_lock_set_ txn ∖ {[rid]}) txn,
           on_queue rid (set_is_writting false) m)
        else (txn, m) in
      let lock_request_list := erase_requests t lock_request_list in
      let m := on_queue rid notify_all m in
      let txn := if decide (state_ txn = GROWING) then SetState SHRINKING txn else txn in
      Ok (true, set_txn t txn m)
  end.

(** [LockManager::LockUpgrade]; after the wait it goes on as
    [LockExclusive_resume].  As in [Unlock], the requests of the transaction
    are erased from a copy of the queue only. *)
Definition LockUpgrade (t : txn_id_t) (rid : RID) (m : LockManager)
  : result (Outcome * LockManager) :=
  match txn_map m !! t with
  | None => UB
  | Some txn =>
      let m := set_lock_table (AList.touch empty_queue rid (lock_table_ m)) m in
      if is_writting_ (queue rid m) then
        Ok (Aborted UPGRADE_CONFLICT, set_txn t (SetState ABORTED txn) m)
      else
        match LockPrepare t txn rid m with
        | (Some reason, m) => Ok (Aborted reason, m)
        | (None, m) =>
            let txn := set_shared (shared_lock_set_ txn ∖ {[rid]}) txn in
            let m := set_txn t txn m in
            let m := on_queue rid (λ q, set_reading_count (reading_count_ q - 1) q) m in
            let lock_request_list := erase_requests t (request_queue_ (queue rid m)) in
            let m := on_queue rid (λ q,
                       set_requests (request_queue_ q ++ [mkRequest t EXCLUSIVE false]) q) m in
            if bool_decide (0 < reading_count_ (queue rid m)) then Ok (Waiting, m)
            else LockExclusive_resume t rid m
        end
  end.

(** *** Waits-for graph *)

(** [waits_for_[t]], read. *)
Definition adj (g : list (txn_id_t * list txn_id_t)) (t : txn_id_t) : list txn_id_t :=
  AList.get [] t g.

(** [LockManager::AddEdge] *)
Definition AddEdge (t1 t2 : txn_id_t) (g : list (txn_id_t * list txn_id_t))
  : list (txn_id_t * list txn_id_t) :=
  if AList.mem t1 g then
    if bool_decide (t2 ∈ adj g t1) then g
    else AList.set t1 (adj g t1 ++ [t2]) g
  else g ++ [(t1, [t2])].

(** Erasing the first occurrence of [t] from a vector. *)
Fixpoint erase_first (t : txn_id_t) (l : list txn_id_t) : list txn_id_t :=
  match l with
  | [] => []
  | x :: l' => if decide (x = t) then l' else x :: erase_first t l'
  end.

(** [LockManager::RemoveEdge] *)
Definition RemoveEdge (t1 t2 : txn_id_t) (g : list (txn_id_t * list txn_id_t))
  : list (txn_id_t * list txn_id_t) :=
  let g := AList.touch [] t1 g in
  AList.set t1 (erase_first t2 (adj g t1)) g.

(** The inner loop of [dfs] over [trial], for one [child]: the returned pair
    is [found] and the value left in [*txn_id]. *)
Fixpoint scan_trial (child : txn_id_t) (trial : list txn_id_t)
    (found : bool) (txn_id : txn_id_t) : bool * txn_id_t :=
  match trial with
  | [] => (found, txn_id)
  | i :: rest =>
      if decide (child = i) then scan_trial child rest true i
      else if found then scan_trial child rest found (Z.max txn_id i)
      else scan_trial child rest found txn_id
  end.

(** The objects [dfs] works on: the [trial] and [visited] references, the
    [*txn_id] output and the [waits_for_] member. *)
Record Search : Type := mkSearch {
  trial : list txn_id_t;
  visited : gset txn_id_t;
  out : txn_id_t;
  graph : list (txn_id_t * list txn_id_t)
}.

(** The loop of [dfs] over the children of [current]; [rec] is the recursive
    call. *)
Fixpoint dfs_children (rec : txn_id_t → Search → option (bool * Search))
    (children : list txn_id_t) (s : Search) : option (bool * Search) :=
  match children with
  | [] => Some (false, mkSearch (removelast (trial s)) (visited s) (out s) (graph s))
  | child :: rest =>
      let '(found, t) := scan_trial child (trial s) false (out s) in
      let s := mkSearch (trial s) (visited s) t (graph s) in
      if found then Some (true, s)
      else if decide (child ∈ visited s) then dfs_children rec rest s
      else
        match rec child s with
        | None => None
        | Some (true, s) => Some (true, s)
        | Some (false, s) => dfs_children rec rest s
        end
  end.

(** [LockManager::dfs].  The recursion is bounded by [fuel]; [None] means
    that the bound was reached.  [waits_for_[current]] adds [current] to the
    map when it has no entry; the vector it returns is not changed while the
    loop runs over it. *)
Fixpoint dfs (fuel : nat) (current : txn_id_t) (s : Search) : option (bool * Search) :=
  match fuel with
  | O => None
  | S fuel =>
      let s := mkSearch (trial s ++ [current]) ({[current]} ∪ visited s) (out s)
                 (AList.touch [] current (graph s)) in
      dfs_children (dfs fuel) (adj (graph s) current) s
  end.

(** The loop of [HasCycle] over the keys of [waits_for_]: a fresh [trial] for
    each start vertex, one [visited] set for all. *)
Fixpoint HasCycle_from (fuel : nat) (starts : list txn_id_t) (vis : gset txn_id_t)
    (txn_id : txn_id_t) (g : list (txn_id_t * list txn_id_t))
  : option (bool * txn_id_t * list (txn_id_t * list txn_id_t)) :=
  match starts with
  | [] => Some (false, txn_id, g)
  | v :: starts =>
      match dfs fuel v (mkSearch [] vis txn_id g) with
      | None => None
      | Some (true, s) => Some (true, out s, graph s)
      | Some (false, s) => HasCycle_from fuel starts (visited s) (out s) (graph s)
      end
  end.

(** [LockManager::HasCycle], with the value of [*txn_id] before and after
    the call.  The loop visits the keys that the map has when it starts: a
    key that [dfs] adds meanwhile has no successor, so that a search from it
    finds nothing and changes nothing. *)
Definition HasCycle (fuel : nat) (txn_id : txn_id_t) (g : list (txn_id_t * list txn_id_t))
  : option (bool * txn_id_t * list (txn_id_t * list txn_id_t)) :=
  HasCycle_from fuel (AList.keys g) ∅ txn_id g.

(** [LockManager::GetEdgeList] *)
Definition GetEdgeList (g : list (txn_id_t * list txn_id_t)) : list (txn_id_t * txn_id_t) :=
  '(a, bs) ← g; b ← bs; [(a, b)].

(** The loop of [RunCycleDetection] that takes the aborted transaction out
    of the graph: its entry is erased, and [RemoveEdge] is called on every
    other entry. *)
Fixpoint purge (txn_id : txn_id_t) (g : list (txn_id_t * list txn_id_t))
  : list (txn_id_t * list txn_id_t) :=
  match g with
  | [] => []
  | (k, vs) :: g' =>
      if decide (k = txn_id) then purge txn_id g'
      else (k, erase_first txn_id vs) :: purge txn_id g'
  end.

(** The [while (HasCycle(&txn_id))] loop of [RunCycleDetection], for the
    queue of [rid]; it returns the transactions it aborted, oldest first.
    [fuel] bounds the searches, [rounds] the number of iterations. *)
Fixpoint break_cycles (fuel rounds : nat) (rid : RID) (txn_id : txn_id_t) (m : LockManager)
  : result (list txn_id_t * LockManager) :=
  match HasCycle fuel txn_id (waits_for_ m) with
  | None => OutOfFuel
  | Some (false, _, g) => Ok ([], set_waits_for g m)
  | Some (true, txn_id, g) =>
      match rounds with
      | O => OutOfFuel
      | S rounds =>
          match txn_map m !! txn_id with
          | None => UB
          | Some txn =>
              let m := set_txn txn_id (SetState ABORTED txn) (set_waits_for g m) in
              let m := on_queue rid notify_all m in
              let m := set_waits_for (purge txn_id (waits_for_ m)) m in
              '(vs, m) ← break_cycles fuel rounds rid txn_id m;
              Ok (txn_id :: vs, m)
          end
      end
  end.

(** The transaction ids of the requests of a queue that are granted or not,
    in a given mode. *)
Definition requests_of (granted : bool) (mode : LockMode) (q : list LockRequest)
  : list txn_id_t :=
  txn_id_ <$> filter (λ r, granted_ r = granted ∧ lock_mode_ r = mode) q.

Definition add_edges (froms tos : list txn_id_t) (g : list (txn_id_t * list txn_id_t))
  : list (txn_id_t * list txn_id_t) :=
  foldl (λ g a, foldl (λ g b, AddEdge a b g) g tos) g froms.

(** The body of the loop of [RunCycleDetection] over [lock_table_], for the
    entry of [rid].  The local [txn_id] is not initialised in the source; it
    is read only after [dfs] has written it, and starts as 0 here. *)
Definition detect_queue (fuel rounds : nat) (rid : RID) (m : LockManager)
  : result (list txn_id_t * LockManager) :=
  let q := queue rid m in
  if negb (is_writting_ q) && bool_decide (reading_count_ q = 0) then Ok ([], m)
  else
    let granted_share := requests_of true SHARED (request_queue_ q) in
    let granted_exclusive := requests_of true EXCLUSIVE (request_queue_ q) in
    let ungranted_share := requests_of false SHARED (request_queue_ q) in
    let ungranted_exclusive := requests_of false EXCLUSIVE (request_queue_ q) in
    let g := add_edges ungranted_share granted_exclusive (waits_for_ m) in
    let g := foldl (λ g a, foldl (λ g b, AddEdge a b g)
                             (foldl (λ g b, AddEdge a b g) g granted_share)
                             granted_exclusive) g ungranted_exclusive in
    break_cycles fuel rounds rid 0 (set_waits_for g m).

(** One round of the loop of [LockManager::RunCycleDetection], after the
    sleep: the graph is cleared, and the queues are visited in the order of
    [lock_table_]. *)
Definition RunCycleDetection_round (fuel rounds : nat) (m : LockManager)
  : result (list txn_id_t * LockManager) :=
  foldl (λ acc rid,
           '(vs, m) ← acc;
           '(ws, m) ← detect_queue fuel rounds rid m;
           Ok (vs ++ ws, m))
        (Ok ([], set_waits_for [] m)) (AList.keys (lock_table_ m)).

(** *** Vocabulary of the properties of the graph *)

(** [a] waits for [b]. *)
Definition edge (g : list (txn_id_t * list txn_id_t)) (a b : txn_id_t) : Prop :=
  b ∈ adj g a.

(** Consecutive vertices of the list are joined by edges. *)
Fixpoint is_path (g : list (txn_id_t * list txn_id_t)) (l : list txn_id_t) : Prop :=
  match l with
  | a :: l' =>
      match l' with
      | b :: _ => edge g a b ∧ is_path g l'
      | [] => True
      end
  | [] => True
  end.

(** The vertices of [c], in order, form a cycle: a path whose last vertex
    has an edge to the first one. *)
Definition is_cycle (g : list (txn_id_t * list txn_id_t)) (c : list txn_id_t) : Prop :=
  ∃ a z, head c = Some a ∧ last c = Some z ∧ is_path g c ∧ edge g z a.

Definition acyclic (g : list (txn_id_t * list txn_id_t)) : Prop :=
  ∀ c, ¬ is_cycle g c.

(** [v] is the largest transaction id of [c]. *)
Definition largest (v : txn_id_t) (c : list txn_id_t) : Prop :=
  v ∈ c ∧ ∀ x, x ∈ c → x ≤ v.

(** Every transaction that occurs in the graph, as a source or as a target. *)
Definition vertices (g : list (txn_id_t * list txn_id_t)) : gset txn_id_t :=
  list_to_set (AList.keys g) ∪ list_to_set (mjoin (g.*2)).

(** What the map type and [AddEdge] guarantee: one entry per key, and no
    target twice in a vector. *)
Definition wf_graph (g : list (txn_id_t * list txn_id_t)) : Prop :=
  NoDup (AList.keys g) ∧ ∀ k vs, (k, vs) ∈ g → NoDup vs.

Definition same_edges (g g' : list (txn_id_t * list txn_id_t)) : Prop :=
  ∀ a, adj g' a = adj g a.

(** [Resolves g vs g']: starting from [g], each transaction of [vs] in turn
    is the largest transaction id of a cycle of the graph at that point and is
    purged from it, and the graph [g'] left at the end has no cycle. *)
Inductive Resolves : list (txn_id_t * list txn_id_t) → list txn_id_t →
                     list (txn_id_t * list txn_id_t) → Prop :=
| Resolves_nil g g' :
    acyclic g → same_edges g g' → Resolves g [] g'
| Resolves_cons g g1 cyc v vs g' :
    is_cycle g cyc → largest v cyc → same_edges g g1 →
    Resolves (purge v g1) vs g' → Resolves g (v :: vs) g'.

(** *** Invariant of the search *)

(** A vertex is finished when the search has left it: it is visited and no
    longer on the stack. *)
Definition finished (s : Search) (u : txn_id_t) : Prop :=
  u ∈ visited s ∧ u ∉ trial s.

(** [g] is [g0] with entries without successors added by [waits_for_[t]]. *)
Definition graph_ext (g0 g : list (txn_id_t * list txn_id_t)) : Prop :=
  same_edges g0 g ∧ vertices g = vertices g0 ∧ (wf_graph g0 → wf_graph g).

(** The stack is a path of visited vertices without repetition; the
    finished vertices are closed under the edges and lie on no cycle. *)
Record search_inv (g0 : list (txn_id_t * list txn_id_t)) (s : Search) : Prop := {
  inv_graph : graph_ext g0 (graph s);
  inv_nodup : NoDup (trial s);
  inv_visited : ∀ x, x ∈ trial s → x ∈ visited s;
  inv_path : is_path g0 (trial s);
  inv_closed : ∀ u w, finished s u → edge g0 u w → finished s w;
  inv_acyclic : ∀ u, finished s u → ¬ tc (edge g0) u u
}.

(** What [dfs] leaves when it returns true: the stack ends with the
    vertices of a cycle, from the target of the back edge on, and [*txn_id]
    is the largest of them. *)
Definition found_cycle (g0 : list (txn_id_t * list txn_id_t)) (s : Search) : Prop :=
  ∃ pre cyc, trial s = pre ++ cyc ∧ is_cycle g0 cyc ∧ largest (out s) cyc.

Definition unvisited (g0 : list (txn_id_t * list txn_id_t)) (s : Search) : nat :=
  size (vertices g0 ∖ visited s).

End Lock.

(** ** B+tree pages and index (src/storage/page, src/storage/index) *)

Module BTree.
Section BPlusTree.
Context {KeyType : Type}.
(** The user-supplied comparator: negative, zero or positive. *)
Variable comparator : KeyType → KeyType → Z.

(** *** Page layouts *)

(** Modelled from the spec: the base class [BPlusTreePage] is not in src/.
    The header of a tree page holds its page id, the page id of its parent
    and its maximal size.  The page type is the constructor of [PageData]
    below, and the current size is the length of the array of the page: the
    slots of the C++ array from [GetSize()] on are not part of the model,
    and an access to them is [UB]. *)
Record BPlusTreePage : Type := mkHeader {
  page_id_ : page_id_t;
  parent_page_id_ : page_id_t;
  max_size_ : Z
}.

(** Modelled from the spec: [b_plus_tree_leaf_page] is not in src/.  A leaf
    is an array of (key, value) pairs sorted by key, with the id of the next
    leaf. *)
Record LeafPage : Type := mkLeaf {
  leaf_header : BPlusTreePage;
  next_page_id_ : page_id_t;
  leaf_array : list (KeyType * RID)
}.

(** An internal page: an array of (key, child page id) pairs.  The key of a
    slot is [None] as long as nothing was written to it (the key of slot 0
    after [PopulateNewRoot]). *)
Record InternalPage : Type := mkInternal {
  internal_header : BPlusTreePage;
  internal_array : list (option KeyType * page_id_t)
}.

(** The bytes of a page, seen through the layout they were written with.
    [Blank] is a page of zero bytes: read as a header page it has no record,
    read as a tree page it has the invalid page type. *)
Inductive PageData : Type :=
| Blank
| LeafData (l : LeafPage)
| InternalData (i : InternalPage)
| HeaderData (records : list (string * page_id_t)).

Definition GetSize_leaf (l : LeafPage) : Z := Z.of_nat (length (leaf_array l)).
Definition GetSize_internal (i : InternalPage) : Z := Z.of_nat (length (internal_array i)).

(** [array[index]]: outside [0 .. GetSize()-1] the access is undefined. *)
Definition slot {A} (arr : list A) (index : Z) : result A :=
  if decide (0 ≤ index) then
    match arr !! Z.to_nat index with
    | Some x => Ok x
    | None => UB
    end
  else UB.

(** **** Internal page (src/storage/page/b_plus_tree_internal_page.cpp) *)

(** [BPlusTreeInternalPage::Init] *)
Definition Init_internal (page_id parent_id : page_id_t) (max_size : Z) : InternalPage :=
  mkInternal (mkHeader page_id parent_id max_size) [].

(** [BPlusTreeInternalPage::KeyAt]; reading a key that was never written
    is [UB]. *)
Definition KeyAt_internal (index : Z) (p : InternalPage) : result KeyType :=
  e ← slot (internal_array p) index;
  match e.1 with Some k => Ok k | None => UB end.

(** [BPlusTreeInternalPage::SetKeyAt] *)
Definition SetKeyAt (index : Z) (key : KeyType) (p : InternalPage) : result InternalPage :=
  e ← slot (internal_array p) index;
  Ok (mkInternal (internal_header p)
        (<[Z.to_nat index := (Some key, e.2)]> (internal_array p))).

(** [BPlusTreeInternalPage::ValueIndex] *)
Definition ValueIndex (value : page_id_t) (p : InternalPage) : Z :=
  match list_find (λ e : option KeyType * page_id_t, e.2 = value) (internal_array p) with
  | Some (i, _) => Z.of_nat i
  | None => -1
  end.

(** [BPlusTreeInternalPage::ValueAt] *)
Definition ValueAt (index : Z) (p : InternalPage) : result page_id_t :=
  e ← slot (internal_array p) index; Ok e.2.

(** The loop of [BPlusTreeInternalPage::Lookup] from slot [i] on, [prev]
    being the value of slot [i - 1]. *)
Fixpoint Lookup_from (key : KeyType) (prev : page_id_t)
    (rest : list (option KeyType * page_id_t)) : result page_id_t :=
  match rest with
  | [] => Ok prev
  | (cur_key, v) :: rest =>
      match cur_key with
      | None => UB
      | Some cur_key =>
          if decide (comparator key cur_key < 0) then Ok prev
          else Lookup_from key v rest
      end
  end.

(** [BPlusTreeInternalPage::Lookup]: on an empty page the function reads
    [array[-1]]. *)
Definition Lookup_internal (key : KeyType) (p : InternalPage) : result page_id_t :=
  match internal_array p with
  | [] => UB
  | (_, v0) :: rest => Lookup_from key v0 rest
  end.

(** [BPlusTreeInternalPage::PopulateNewRoot]; the function is called on a
    page that [Init] has just emptied, the only case in the model: with
    entries in the page, the size it sets would cover slots not written. *)
Definition PopulateNewRoot (old_value : page_id_t) (new_key : KeyType)
    (new_value : page_id_t) (p : InternalPage) : result InternalPage :=
  match internal_array p with
  | [] => Ok (mkInternal (internal_header p) [(None, old_value); (Some new_key, new_value)])
  | _ => UB
  end.

(** [BPlusTreeInternalPage::Insert]: the entries from [index] on move up by
    one slot.  An [index] outside [0 .. GetSize()] is [UB]: below 0 the loop
    leaves the array, above [GetSize()] it leaves a slot not written. *)
Definition Insert_internal (index : Z) (item : option KeyType * page_id_t)
    (p : InternalPage) : result InternalPage :=
  if decide (0 ≤ index ≤ GetSize_internal p) then
    Ok (mkInternal (internal_header p)
          (take (Z.to_nat index) (internal_array p) ++ item ::
           drop (Z.to_nat index) (internal_array p)))
  else UB.

(** [BPlusTreeInternalPage::InsertNodeAfter]; the search for [old_value] has
    no bound in the source: when the value is not in the page it leaves the
    array. *)
Definition InsertNodeAfter (old_value : page_id_t) (new_key : KeyType)
    (new_value : page_id_t) (p : InternalPage) : result (Z * InternalPage) :=
  match list_find (λ e : option KeyType * page_id_t, e.2 = old_value) (internal_array p) with
  | None => UB
  | Some (old_index, _) =>
      p ← Insert_internal (Z.of_nat old_index + 1) (Some new_key, new_value) p;
      Ok (GetSize_internal p, p)
  end.

(** [BPlusTreeInternalPage::Remove] *)
Definition Remove_internal (index : Z) (p : InternalPage) : result InternalPage :=
  _ ← slot (internal_array p) index;
  Ok (mkInternal (internal_header p) (delete (Z.to_nat index) (internal_array p))).

(** **** Leaf page *)

(** Modelled from the spec: [BPlusTreeLeafPage::Init]; a new leaf has no
    next leaf, which the spec writes [INVALID_PAGE_ID]. *)
Definition Init_leaf (page_id parent_id : page_id_t) (max_size : Z) : LeafPage :=
  mkLeaf (mkHeader page_id parent_id max_size) INVALID_PAGE_ID [].

(** Modelled from the spec: [BPlusTreeLeafPage::KeyIndex], the index of the
    first key that is not below [key], the size of the page when all are. *)
Fixpoint KeyIndex_from (key : KeyType) (arr : list (KeyType * RID)) (i : Z) : Z :=
  match arr with
  | [] => i
  | (k, _) :: rest =>
      if decide (0 ≤ comparator k key) then i else KeyIndex_from key rest (i + 1)
  end.
Definition KeyIndex (key : KeyType) (l : LeafPage) : Z :=
  KeyIndex_from key (leaf_array l) 0.

(** Modelled from the spec: [BPlusTreeLeafPage::Lookup], the look-up of a
    key in a leaf: the value stored with the key when the key is there
    (written to [*value], the function returning true), [None] when it is not
    ([*value] is not written, the function returns false). *)
Definition Lookup_leaf (key : KeyType) (l : LeafPage) : option RID :=
  snd <$> List.find (λ e : KeyType * RID, bool_decide (comparator key e.1 = 0)) (leaf_array l).

(** Modelled from the spec: [BPlusTreeLeafPage::Insert], the insertion of a
    pair at its place in the order of the keys; it returns the new size. *)
Definition Insert_leaf (key : KeyType) (value : RID) (l : LeafPage) : Z * LeafPage :=
  let i := Z.to_nat (KeyIndex key l) in
  let l := mkLeaf (leaf_header l) (next_page_id_ l)
             (take i (leaf_array l) ++ (key, value) :: drop i (leaf_array l)) in
  (GetSize_leaf l, l).

(** Modelled from the spec: [BPlusTreeLeafPage::KeyAt] and [GetItem]. *)
Definition KeyAt_leaf (index : Z) (l : LeafPage) : result KeyType :=
  e ← slot (leaf_array l) index; Ok e.1.
Definition GetItem (index : Z) (l : LeafPage) : result (KeyType * RID) :=
  slot (leaf_array l) index.

(** Modelled from the spec: [BPlusTreeLeafPage::MoveHalfTo], which moves the
    upper half of the pairs to the end of [recipient]; the pair is the page
    and the recipient afterwards. *)
Definition MoveHalfTo_leaf (l recipient : LeafPage) : LeafPage * LeafPage :=
  let h := Z.to_nat (GetSize_leaf l `quot` 2) in
  (mkLeaf (leaf_header l) (next_page_id_ l) (take h (leaf_array l)),
   mkLeaf (leaf_header recipient) (next_page_id_ recipient)
     (leaf_array recipient ++ drop h (leaf_array l))).

Definition SetNextPageId (n : page_id_t) (l : LeafPage) : LeafPage :=
  mkLeaf (leaf_header l) n (leaf_array l).

Definition SetParentPageId (parent : page_id_t) (h : BPlusTreePage) : BPlusTreePage :=
  mkHeader (page_id_ h) parent (max_size_ h).

(** Modelled from the spec: [BPlusTreePage::IsRootPage]; the root is the
    page without parent. *)
Definition IsRootPage (h : BPlusTreePage) : bool :=
  bool_decide (parent_page_id_ h = INVALID_PAGE_ID).

(** **** Header page *)

(** Modelled from the spec: [HeaderPage] is not in src/.  It stores one
    record per index name, the root page id of the index; [InsertRecord]
    adds the record of a name that has none, [UpdateRecord] replaces the
    record of a name that has one; both return false otherwise. *)
Definition InsertRecord (name : string) (root_id : page_id_t)
    (records : list (string * page_id_t)) : bool * list (string * page_id_t) :=
  if AList.mem name records then (false, records)
  else (true, records ++ [(name, root_id)]).
Definition UpdateRecord (name : string) (root_id : page_id_t)
    (records : list (string * page_id_t)) : bool * list (string * page_id_t) :=
  if AList.mem name records then (true, AList.set name root_id records)
  else (false, records).

(** *** Calls on a state *)

(** A computation on a state [S] that returns an [A], unless it ends in
    undefined behaviour, an exception or the bound of the model. *)
Definition M (S A : Type) : Type := S → result (A * S).

#[global] Instance M_ret {S} : MRet (M S) := λ A a s, Ok (a, s).
#[global] Instance M_bind {S} : MBind (M S) := λ A B k m s,
  match m s with
  | Ok (a, s) => k a s
  | UB => UB
  | Throw e => Throw e
  | OutOfFuel => OutOfFuel
  end.

Definition undefined {S A} : M S A := λ _, UB.
Definition throw {S A} (msg : string) : M S A := λ _, Throw msg.
Definition out_of_fuel {S A} : M S A := λ _, OutOfFuel.
Definition lift {S A} (r : result A) : M S A := λ s, a ← r; Ok (a, s).

(** Reading through a pointer that may be [nullptr]. *)
Definition deref {S A} (p : option A) : M S A :=
  match p with Some x => mret x | None => undefined end.

Abbreviation Pool := (BPM.BufferPoolManager PageData).

(** [FetchPage], [UnpinPage], [NewPage]: the public functions of the buffer
    pool, which call the [...Impl] functions. *)
Definition FetchPage (page_id : page_id_t) : M Pool (option frame_id_t) :=
  BPM.FetchPageImpl page_id.
Definition UnpinPage (page_id : page_id_t) (is_dirty : bool) : M Pool bool :=
  BPM.UnpinPageImpl page_id is_dirty.
Definition NewPage : M Pool (option (page_id_t * frame_id_t)) :=
  BPM.NewPageImpl.

(** The buffer of the frame [f], read and written through a page pointer. *)
Definition GetData (f : frame_id_t) : M Pool PageData :=
  λ b, pg ← BPM.frame f b; Ok (BPM.data_ pg, b).
Definition SetData (f : frame_id_t) (d : PageData) : M Pool () :=
  λ b, pg ← BPM.frame f b;
       Ok ((), BPM.set_frame f
                 (BPM.mkPage (BPM.page_id_ pg) (BPM.pin_count_ pg) (BPM.is_dirty_ pg) d) b).

(** [reinterpret_cast] of a page to a layout.  A page of zero bytes is a
    header page without record, or a tree page of invalid type, of size 0,
    with zero in every field; a page written with another layout has no
    defined reading. *)
Definition as_leaf (f : frame_id_t) : M Pool LeafPage :=
  d ← GetData f;
  match d with
  | LeafData l => mret l
  | Blank => mret (mkLeaf (mkHeader 0 0 0) 0 [])
  | _ => undefined
  end.
Definition as_internal (f : frame_id_t) : M Pool InternalPage :=
  d ← GetData f;
  match d with
  | InternalData i => mret i
  | Blank => mret (mkInternal (mkHeader 0 0 0) [])
  | _ => undefined
  end.
Definition as_header_page (f : frame_id_t) : M Pool (list (string * page_id_t)) :=
  d ← GetData f;
  match d with
  | HeaderData r => mret r
  | Blank => mret []
  | _ => undefined
  end.

(** [IsLeafPage()] through a [BPlusTreePage *]. *)
Definition IsLeafPage (f : frame_id_t) : M Pool bool :=
  d ← GetData f;
  match d with
  | LeafData _ => mret true
  | InternalData _ | Blank => mret false
  | HeaderData _ => undefined
  end.

(** The header of a tree page, read and updated through a
    [BPlusTreePage *]. *)
Definition tree_page (f : frame_id_t) : M Pool BPlusTreePage :=
  d ← GetData f;
  match d with
  | LeafData l => mret (leaf_header l)
  | InternalData i => mret (internal_header i)
  | Blank => mret (mkHeader 0 0 0)
  | HeaderData _ => undefined
  end.
Definition set_tree_page (f : frame_id_t) (h : BPlusTreePage) : M Pool () :=
  d ← GetData f;
  match d with
  | LeafData l => SetData f (LeafData (mkLeaf h (next_page_id_ l) (leaf_array l)))
  | InternalData i => SetData f (InternalData (mkInternal h (internal_array i)))
  | _ => undefined
  end.

(** **** The moves of an internal page that need the buffer pool *)

(** The loop of [BPlusTreeInternalPage::MoveHalfTo]; [this] and [recipient]
    are the two pages, [i] and [j] the loop variables. *)
Fixpoint MoveHalfTo_loop (fuel : nat) (this recipient : frame_id_t) (i j : Z) : M Pool () :=
  p ← as_internal this;
  if decide (i < GetSize_internal p) then
    match fuel with
    | O => out_of_fuel
    | S fuel =>
        e ← lift (slot (internal_array p) i);
        r ← as_internal recipient;
        r ← lift (Insert_internal j e r);
        _ ← SetData recipient (InternalData r);
        p ← as_internal this;
        e ← lift (slot (internal_array p) i);
        page ← FetchPage e.2;
        page ← deref page;
        h ← tree_page page;
        r ← as_internal recipient;
        _ ← set_tree_page page (SetParentPageId (page_id_ (internal_header r)) h);
        h ← tree_page page;
        _ ← UnpinPage (page_id_ h) true;
        MoveHalfTo_loop fuel this recipient (i + 1) (j + 1)
    end
  else mret ().

(** [BPlusTreeInternalPage::MoveHalfTo] *)
Definition MoveHalfTo_internal (this recipient : frame_id_t) : M Pool () :=
  p ← as_internal this;
  _ ← MoveHalfTo_loop (length (internal_array p)) this recipient
        (GetSize_internal p `quot` 2) 0;
  p ← as_internal this;
  let cnt := GetSize_internal p - GetSize_internal p `quot` 2 in
  SetData this (InternalData (mkInternal (internal_header p)
                  (take (Z.to_nat (GetSize_internal p - cnt)) (internal_array p)))).

(** *** The index (src/storage/index/b_plus_tree.cpp) *)

(** The value of [RID rid;], which the sources in src/ do not define. *)
Variable RID_default : RID.

Inductive OpType : Type := READ | INSERT | DELETE.

(** The tree object, with the buffer pool its pointer refers to.  The
    functions below are the calls with [transaction == nullptr]: the
    branches under [transaction != nullptr], which latch and unlatch the
    pages of the path, belong to the concurrent use of the tree and are not
    modelled. *)
Record BPlusTree : Type := mkTree {
  index_name_ : string;
  root_page_id_ : page_id_t;
  buffer_pool_manager_ : Pool;
  leaf_max_size_ : Z;
  internal_max_size_ : Z
}.

Definition set_root (r : page_id_t) (t : BPlusTree) : BPlusTree :=
  mkTree (index_name_ t) r (buffer_pool_manager_ t) (leaf_max_size_ t) (internal_max_size_ t).
Definition set_pool (b : Pool) (t : BPlusTree) : BPlusTree :=
  mkTree (index_name_ t) (root_page_id_ t) b (leaf_max_size_ t) (internal_max_size_ t).

(** [BPlusTree::BPlusTree] *)
Definition create (name : string) (buffer_pool_manager : Pool)
    (leaf_max_size internal_max_size : Z) : BPlusTree :=
  mkTree name INVALID_PAGE_ID buffer_pool_manager leaf_max_size internal_max_size.

(** A call on the buffer pool of the tree. *)
Definition pool {A} (m : M Pool A) : M BPlusTree A :=
  λ t, '(a, b) ← m (buffer_pool_manager_ t); Ok (a, set_pool b t).
Definition get {S} : M S S := λ s, Ok (s, s).
Definition SetRootPageId (r : page_id_t) : M BPlusTree () := λ t, Ok ((), set_root r t).

(** [BPlusTree::IsEmpty] *)
Definition IsEmpty (t : BPlusTree) : bool :=
  bool_decide (root_page_id_ t = INVALID_PAGE_ID).

(** The loop of [FindLeafPageRW]; [fuel] bounds the number of levels. *)
Fixpoint FindLeafPageRW_loop (fuel : nat) (key : KeyType) (leftMost : bool)
    (page : frame_id_t) : M Pool frame_id_t :=
  is_leaf ← IsLeafPage page;
  if is_leaf : bool then mret page
  else
    match fuel with
    | O => out_of_fuel
    | S fuel =>
        internal_page ← as_internal page;
        page_id ← lift (if leftMost then ValueAt 0 internal_page
                        else Lookup_internal key internal_page);
        page ← FetchPage page_id;
        page ← deref page;
        FindLeafPageRW_loop fuel key leftMost page
    end.

(** [BPlusTree::FindLeafPageRW] *)
Definition FindLeafPageRW (fuel : nat) (key : KeyType) (op : OpType) (leftMost : bool)
  : M BPlusTree frame_id_t :=
  t ← get;
  page ← pool (FetchPage (root_page_id_ t));
  page ← deref page;
  pool (FindLeafPageRW_loop fuel key leftMost page).

(** The loop of [FindLeafPage], which unpins the page it leaves. *)
Fixpoint FindLeafPage_loop (fuel : nat) (key : KeyType) (leftMost : bool)
    (page : frame_id_t) : M Pool frame_id_t :=
  is_leaf ← IsLeafPage page;
  if is_leaf : bool then mret page
  else
    match fuel with
    | O => out_of_fuel
    | S fuel =>
        internal_page ← as_internal page;
        page_id ← lift (if leftMost then ValueAt 0 internal_page
                        else Lookup_internal key internal_page);
        child ← FetchPage page_id;
        internal_page ← as_internal page;
        _ ← UnpinPage (page_id_ (internal_header internal_page)) false;
        child ← deref child;
        FindLeafPage_loop fuel key leftMost child
    end.

(** [BPlusTree::FindLeafPage] *)
Definition FindLeafPage (fuel : nat) (key : KeyType) (leftMost : bool)
  : M BPlusTree frame_id_t :=
  t ← get;
  page ← pool (FetchPage (root_page_id_ t));
  page ← deref page;
  pool (FindLeafPage_loop fuel key leftMost page).

(** [BPlusTree::GetValue]: the pair returned is the boolean and the
    [result] vector after the call. *)
Definition GetValue (fuel : nat) (key : KeyType) (result : list RID)
  : M BPlusTree (bool * list RID) :=
  page ← FindLeafPageRW fuel key READ false;
  leaf_page ← pool (as_leaf page);
  let '(res, rid) :=
    match Lookup_leaf key leaf_page with
    | Some v => (true, v)
    | None => (false, RID_default)
    end in
  let result := result ++ [rid] in
  leaf_page ← pool (as_leaf page);
  _ ← pool (UnpinPage (page_id_ (leaf_header leaf_page)) false);
  mret (res, result).

(** [BPlusTree::UpdateRootPageId] *)
Definition UpdateRootPageId (insert_record : Z) : M BPlusTree () :=
  header_page ← pool (FetchPage HEADER_PAGE_ID);
  header_page ← deref header_page;
  records ← pool (as_header_page header_page);
  t ← get;
  let records :=
    if decide (insert_record ≠ 0)
    then (InsertRecord (index_name_ t) (root_page_id_ t) records).2
    else (UpdateRecord (index_name_ t) (root_page_id_ t) records).2 in
  _ ← pool (SetData header_page (HeaderData records));
  _ ← pool (UnpinPage HEADER_PAGE_ID true);
  mret ().

(** [BPlusTree::StartNewTree] *)
Definition StartNewTree (key : KeyType) (value : RID) : M BPlusTree () :=
  page ← pool NewPage;
  match page with
  | None => throw "out of memory"
  | Some (new_id, page) =>
      _ ← SetRootPageId new_id;
      t ← get;
      _ ← pool (SetData page
                  (LeafData (Init_leaf (root_page_id_ t) INVALID_PAGE_ID (leaf_max_size_ t))));
      leaf_page ← pool (as_leaf page);
      _ ← pool (SetData page (LeafData (Insert_leaf key value leaf_page).2));
      _ ← UpdateRootPageId 1;
      t ← get;
      _ ← pool (UnpinPage (root_page_id_ t) true);
      mret ()
  end.

(** [BPlusTree::Split]: the result is the new page. *)
Definition Split (node : frame_id_t) : M BPlusTree frame_id_t :=
  page ← pool NewPage;
  match page with
  | None => throw "out of memory"
  | Some (page_id, page) =>
      t ← get;
      is_leaf ← pool (IsLeafPage node);
      if is_leaf : bool then
        leaf_page ← pool (as_leaf node);
        _ ← pool (SetData page
                    (LeafData (Init_leaf page_id (parent_page_id_ (leaf_header leaf_page))
                                 (leaf_max_size_ t))));
        leaf_page ← pool (as_leaf node);
        new_leaf_page ← pool (as_leaf page);
        let '(l, r) := MoveHalfTo_leaf leaf_page new_leaf_page in
        _ ← pool (SetData node (LeafData l));
        _ ← pool (SetData page (LeafData r));
        leaf_page ← pool (as_leaf node);
        new_leaf_page ← pool (as_leaf page);
        _ ← pool (SetData page
                    (LeafData (SetNextPageId (next_page_id_ leaf_page) new_leaf_page)));
        new_leaf_page ← pool (as_leaf page);
        leaf_page ← pool (as_leaf node);
        _ ← pool (SetData node
                    (LeafData (SetNextPageId (page_id_ (leaf_header new_leaf_page)) leaf_page)));
        mret page
      else
        internal_page ← pool (as_internal node);
        _ ← pool (SetData page
                    (InternalData
                       (Init_internal page_id (parent_page_id_ (internal_header internal_page))
                          (internal_max_size_ t))));
        _ ← pool (MoveHalfTo_internal node page);
        mret page
  end.

(** [BPlusTree::InsertIntoParent]; [fuel] bounds the recursion up the
    tree. *)
Fixpoint InsertIntoParent (fuel : nat) (old_node : frame_id_t) (key : KeyType)
    (new_node : frame_id_t) : M BPlusTree () :=
  old ← pool (tree_page old_node);
  if IsRootPage old then
    page ← pool NewPage;
    let new_root_id := match page with Some (id, _) => id | None => -1 end in
    page ← deref (snd <$> page);
    t ← get;
    _ ← pool (SetData page
                (InternalData (Init_internal new_root_id INVALID_PAGE_ID (internal_max_size_ t))));
    new_root ← pool (as_internal page);
    old ← pool (tree_page old_node);
    new ← pool (tree_page new_node);
    new_root ← lift (PopulateNewRoot (page_id_ old) key (page_id_ new) new_root);
    _ ← pool (SetData page (InternalData new_root));
    _ ← SetRootPageId new_root_id;
    _ ← UpdateRootPageId 2;
    old ← pool (tree_page old_node);
    _ ← pool (set_tree_page old_node (SetParentPageId new_root_id old));
    new ← pool (tree_page new_node);
    _ ← pool (set_tree_page new_node (SetParentPageId new_root_id new));
    _ ← pool (UnpinPage new_root_id true);
    mret ()
  else
    page ← pool (FetchPage (parent_page_id_ old));
    parent_node ← deref page;
    parent ← pool (as_internal parent_node);
    old ← pool (tree_page old_node);
    new ← pool (tree_page new_node);
    r ← lift (InsertNodeAfter (page_id_ old) key (page_id_ new) parent);
    _ ← pool (SetData parent_node (InternalData r.2));
    old ← pool (tree_page old_node);
    new ← pool (tree_page new_node);
    _ ← pool (set_tree_page new_node (SetParentPageId (parent_page_id_ old) new));
    parent ← pool (as_internal parent_node);
    _ ← (if decide (max_size_ (internal_header parent) < GetSize_internal parent) then
           match fuel with
           | O => out_of_fuel
           | S fuel =>
               new_parent_node ← Split parent_node;
               new_parent ← pool (as_internal new_parent_node);
               up_key ← lift (KeyAt_internal 0 new_parent);
               _ ← InsertIntoParent fuel parent_node up_key new_parent_node;
               new_parent ← pool (tree_page new_parent_node);
               _ ← pool (UnpinPage (page_id_ new_parent) true);
               mret ()
           end
         else mret ());
    parent ← pool (tree_page parent_node);
    _ ← pool (UnpinPage (page_id_ parent) true);
    mret ().

(** [BPlusTree::InsertIntoLeaf] *)
Definition InsertIntoLeaf (fuel : nat) (key : KeyType) (value : RID) : M BPlusTree bool :=
  t ← get;
  if IsEmpty t then
    _ ← StartNewTree key value;
    mret true
  else
    page ← FindLeafPageRW fuel key INSERT false;
    leaf_page ← pool (as_leaf page);
    res ← match Lookup_leaf key leaf_page with
          | Some _ => mret false
          | None =>
              _ ← pool (SetData page (LeafData (Insert_leaf key value leaf_page).2));
              leaf_page ← pool (as_leaf page);
              _ ← (if decide (max_size_ (leaf_header leaf_page) - 1 < GetSize_leaf leaf_page) then
                     new_leaf_page ← Split page;
                     new_leaf ← pool (as_leaf new_leaf_page);
                     up_key ← lift (KeyAt_leaf 0 new_leaf);
                     _ ← InsertIntoParent fuel page up_key new_leaf_page;
                     new_leaf ← pool (as_leaf new_leaf_page);
                     _ ← pool (UnpinPage (page_id_ (leaf_header new_leaf)) true);
                     mret ()
                   else mret ());
              mret true
          end;
    leaf_page ← pool (as_leaf page);
    _ ← pool (UnpinPage (page_id_ (leaf_header leaf_page)) true);
    mret res.

(** [BPlusTree::Insert] *)
Definition Insert (fuel : nat) (key : KeyType) (value : RID) : M BPlusTree bool :=
  InsertIntoLeaf fuel key value.

(** *** The iterator (src/storage/index/index_iterator.cpp) *)

(** The iterator object; its [buffer_pool_manager_] is the pool the calls
    run on. *)
Record IndexIterator : Type := mkIterator {
  leaf_page_ : option frame_id_t;
  index_ : Z
}.

(** [IndexIterator::isEnd] *)
Definition isEnd (it : IndexIterator) : M Pool bool :=
  leaf ← deref (leaf_page_ it);
  leaf_page ← as_leaf leaf;
  mret (bool_decide (next_page_id_ leaf_page = 0) &&
        bool_decide (index_ it = GetSize_leaf leaf_page)).

(** [IndexIterator::operator*] *)
Definition current (it : IndexIterator) : M Pool (KeyType * RID) :=
  leaf ← deref (leaf_page_ it);
  leaf_page ← as_leaf leaf;
  lift (GetItem (index_ it) leaf_page).

(** [IndexIterator::operator++]: the result is the iterator after the
    call. *)
Definition next (it : IndexIterator) : M Pool IndexIterator :=
  let it := mkIterator (leaf_page_ it) (index_ it + 1) in
  leaf ← deref (leaf_page_ it);
  leaf_page ← as_leaf leaf;
  if bool_decide (index_ it = GetSize_leaf leaf_page) &&
     bool_decide (next_page_id_ leaf_page ≠ 0) then
    page ← FetchPage (next_page_id_ leaf_page);
    leaf_page ← as_leaf leaf;
    _ ← UnpinPage (page_id_ (leaf_header leaf_page)) true;
    mret (mkIterator page 0)
  else mret it.

(** [IndexIterator::operator==] *)
Definition equal (it itr : IndexIterator) : M Pool bool :=
  a ← deref (leaf_page_ it);
  a ← as_leaf a;
  b ← deref (leaf_page_ itr);
  b ← as_leaf b;
  mret (bool_decide (page_id_ (leaf_header a) = page_id_ (leaf_header b)) &&
        bool_decide (index_ it = index_ itr)).

(** [IndexIterator::~IndexIterator] *)
Definition destroy (it : IndexIterator) : M Pool () :=
  leaf ← deref (leaf_page_ it);
  leaf_page ← as_leaf leaf;
  _ ← UnpinPage (page_id_ (leaf_header leaf_page)) true;
  mret ().

(** [BPlusTree::Begin(key)] *)
Definition Begin (fuel : nat) (key : KeyType) : M BPlusTree IndexIterator :=
  page ← FindLeafPage fuel key false;
  leaf_page ← pool (as_leaf page);
  mret (mkIterator (Some page) (KeyIndex key leaf_page)).

(** The loop of [BPlusTree::end]. *)
Fixpoint end_loop (fuel : nat) (page : frame_id_t) : M Pool frame_id_t :=
  is_leaf ← IsLeafPage page;
  if is_leaf : bool then mret page
  else
    match fuel with
    | O => out_of_fuel
    | S fuel =>
        internal_page ← as_internal page;
        right_most ← lift (ValueAt (GetSize_internal internal_page - 1) internal_page);
        page ← FetchPage right_most;
        page ← deref page;
        end_loop fuel page
    end.

(** [BPlusTree::end] *)
Definition end_ (fuel : nat) : M BPlusTree IndexIterator :=
  t ← get;
  page ← pool (FetchPage (root_page_id_ t));
  page ← deref page;
  page ← pool (end_loop fuel page);
  leaf_page ← pool (as_leaf page);
  mret (mkIterator (Some page) (GetSize_leaf leaf_page)).

(** *** Vocabulary of the properties of the tree *)

(** The leaf that the search for [key] reaches from the page [p], reading
    every page as the clients of the pool see it; [levels] is the number of
    internal pages on the way. *)
Fixpoint leaf_of (levels : nat) (b : Pool) (key : KeyType) (p : page_id_t)
  : option (page_id_t * LeafPage) :=
  if decide (p = INVALID_PAGE_ID) then None
  else
    match levels with
    | O => match BPM.view b p with LeafData l => Some (p, l) | _ => None end
    | S levels =>
        match BPM.view b p with
        | InternalData i =>
            match Lookup_internal key i with
            | Ok child => leaf_of levels b key child
            | _ => None
            end
        | _ => None
        end
    end.

End BPlusTree.
Arguments BPlusTreePage : clear implicits.
Arguments LeafPage : clear implicits.
Arguments InternalPage : clear implicits.
Arguments PageData : clear implicits.
Arguments BPlusTree : clear implicits.
Arguments IndexIterator : clear implicits.
End BTree.

(** * Properties *)

(** ** Outcomes *)

Lemma bind_Ok {A B} (m : result A) (k : A → result B) (y : B) :
  m ≫= k = Ok y → ∃ a, m = Ok a ∧ k a = Ok y.
Proof. destruct m as [a| |s|]; simpl; [eauto | discriminate ..]. Qed.

Ltac inv_bind H :=
  let a := fresh "a" in
  let Ha := fresh "Ha" in
  apply bind_Ok in H; destruct H as (a & Ha & H).

(** ** LRU replacer *)

Section LRU_facts.
Import LRU.

Lemma erase_node_subset f l x : x ∈ erase_node f l → x ∈ l.
Proof.
  induction l as [|y l IH]; simpl; [done|].
  case_decide; set_solver.
Qed.

Lemma erase_node_NoDup f l : NoDup l → NoDup (erase_node f l).
Proof.
  induction 1 as [|y l Hy Hl IH]; simpl; [constructor|].
  case_decide; [done|].
  constructor; [|done]. intros Hin. apply Hy. eapply erase_node_subset, Hin.
Qed.

Lemma erase_node_elem f l x :
  NoDup l → x ∈ erase_node f l ↔ x ∈ l ∧ x ≠ f.
Proof.
  induction 1 as [|y l Hy Hl IH]; simpl; [set_solver|].
  case_decide as Hd.
  - subst y. split.
    + intros Hx. split; [set_solver|]. intros ->. done.
    + intros [Hx Hne]. set_solver.
  - rewrite elem_of_cons, IH, elem_of_cons. naive_solver.
Qed.

Lemma erase_node_length f l :
  f ∈ l → S (length (erase_node f l)) = length l.
Proof.
  induction l as [|y l IH]; simpl; [set_solver|].
  intros Hin. case_decide; [done|].
  simpl. f_equal. apply IH. set_solver.
Qed.

Lemma Pin_wf f r : wf r → wf (Pin f r).
Proof.
  intros [Hnd Hsync]. unfold Pin. case_decide; [|done].
  split; simpl.
  - by apply erase_node_NoDup.
  - intros x. rewrite erase_node_elem by done. rewrite <- Hsync. set_solver.
Qed.

(** On a well-formed replacer [Victim] fails exactly on the empty list, and
    otherwise returns and removes the back of the list. *)
Lemma Victim_wf r :
  wf r →
  match last (lruList r) with
  | None => Victim r = Ok (None, r)
  | Some f =>
      ∃ r', Victim r = Ok (Some f, r') ∧ wf r' ∧
            lruList r' = removelast (lruList r) ∧ lruList r = lruList r' ++ [f]
  end.
Proof.
  intros [Hnd Hsync]. unfold Victim.
  destruct (last (lruList r)) as [f|] eqn:Hlast.
  - apply last_Some in Hlast as [l' Hl'].
    assert (lruMap r ≠ ∅) as Hne.
    { intros He. specialize (Hsync f). rewrite He, Hl' in Hsync. set_solver. }
    rewrite decide_False by done.
    eexists; split; [done|]. simpl.
    rewrite Hl', removelast_last. split; [|done].
    rewrite Hl' in Hnd. apply NoDup_app in Hnd as (Hnd1 & Hdis & _).
    split; simpl; [done|].
    intros x. rewrite elem_of_difference, Hsync, Hl', elem_of_app.
    rewrite list_elem_of_singleton, elem_of_singleton.
    split; [naive_solver|]. intros Hx. split; [by left|].
    intros ->. eapply Hdis; [done|]. by apply list_elem_of_singleton.
  - apply last_None in Hlast.
    assert (lruMap r = ∅) as He.
    { apply set_eq. intros x. rewrite Hsync, Hlast. set_solver. }
    by rewrite decide_True.
Qed.

End LRU_facts.

Section LRU_claims.
Import LRU.

(** When the list is full, [Unpin] of a frame that is not tracked replaces
    the front of the list, the entry unpinned last; the back, which [Victim]
    would return, stays. *)
Lemma Unpin_full_replaces_front r f delId rest :
  f ∉ lruMap r → (capacity r ≤ Size r)%nat → lruList r = delId :: rest →
  ∃ r', Unpin f r = Ok r' ∧ lruList r' = f :: rest.
Proof.
  intros Hf Hcap Hl. unfold Unpin.
  rewrite decide_False by done. rewrite decide_True by done.
  rewrite Hl. eauto.
Qed.

Lemma Unpin_wf f r : wf r → ∀ r', Unpin f r = Ok r' → wf r'.
Proof.
  intros [Hnd Hsync] r'. unfold Unpin.
  case_decide as Hin; [by intros [= <-]|].
  case_decide as Hcap.
  - destruct (lruList r) as [|d rest] eqn:Hl; [done|]. intros [= <-].
    apply NoDup_cons in Hnd as [Hd Hrest].
    assert (f ∉ rest) as Hfr.
    { intros Hx. apply Hin, Hsync. by right. }
    split; simpl; [by constructor|].
    intros x. rewrite elem_of_union, elem_of_singleton, elem_of_difference,
      elem_of_singleton, Hsync, !elem_of_cons.
    split; [naive_solver|]. intros [->|Hx]; [by left|]. right.
    split; [by right|]. by intros ->.
  - intros [= <-]. split; simpl.
    + constructor; [|done]. by rewrite <- Hsync.
    + intros x. rewrite elem_of_union, elem_of_singleton, Hsync, elem_of_cons.
      done.
Qed.

(** C4 (the code departs from the claim): with capacity 2, after [Unpin 1]
    and [Unpin 2] the list is full; [Unpin 3] then drops frame 2, the entry
    unpinned last (the front of the list), and keeps frame 1, the oldest
    entry, which the next [Victim] returns. *)
Theorem Unpin_full_evicts_most_recent :
  ∃ r2 r3 r4,
    (Unpin 1 (create 2) ≫= Unpin 2) = Ok r2 ∧ lruList r2 = [2; 1] ∧
    Unpin 3 r2 = Ok r3 ∧ lruList r3 = [3; 1] ∧
    Victim r3 = Ok (Some 1, r4) ∧ lruList r4 = [3].
Proof.
  do 3 eexists. split; [vm_compute; reflexivity|].
  split; [reflexivity|]. split; [vm_compute; reflexivity|].
  split; [reflexivity|]. split; [vm_compute; reflexivity|]. reflexivity.
Qed.

End LRU_claims.

(** ** Buffer pool manager *)

Section BPM_facts.
Context {Data : Type}.
Import BPM.
Implicit Types (b : BufferPoolManager Data) (p : page_id_t) (f : frame_id_t).

Lemma frame_Ok f b pg :
  frame f b = Ok pg ↔ 0 ≤ f ∧ pages_ b !! Z.to_nat f = Some pg.
Proof.
  unfold frame. case_decide; [|naive_solver].
  destruct (pages_ b !! Z.to_nat f); naive_solver.
Qed.

(** The [is_dirty] argument of [UnpinPageImpl] is never read. *)
Lemma UnpinPageImpl_is_dirty_unused p b :
  UnpinPageImpl p true b = UnpinPageImpl p false b.
Proof. reflexivity. Qed.

(** On a mapped page with a positive pin count, [UnpinPageImpl] succeeds,
    takes one pin off and leaves the dirty bit as it was. *)
Lemma UnpinPageImpl_mapped p is_dirty b f pg :
  page_table_ b !! p = Some f → frame f b = Ok pg → pin_count_ pg ≠ 0 →
  is_Ok (LRU.Unpin f (replacer_ b)) →
  ∃ b', UnpinPageImpl p is_dirty b = Ok (true, b') ∧
        page_table_ b' = page_table_ b ∧
        pages_ b' = <[Z.to_nat f :=
                       mkPage (page_id_ pg) (pin_count_ pg - 1) (is_dirty_ pg)
                         (data_ pg)]> (pages_ b) ∧
        disk_manager_ b' = disk_manager_ b ∧
        free_list_ b' = free_list_ b.
Proof.
  intros Hpt Hfr Hpin [r Hr]. unfold UnpinPageImpl. rewrite Hpt, Hfr. simpl.
  rewrite decide_False by done.
  case_decide.
  - simpl. rewrite Hr. simpl. by eexists.
  - by eexists.
Qed.

End BPM_facts.

Section BPM_claims.
Context {Data : Type}.
Import BPM.
Implicit Types (b : BufferPoolManager Data) (p : page_id_t) (f : frame_id_t).

(** [FindReplace] calls the disk manager at most once, to write the victim
    back; it allocates and deallocates nothing. *)
Lemma FindReplace_disk b fr b' :
  FindReplace b = Ok (fr, b') →
  Disk.next_page_id (disk_manager_ b') = Disk.next_page_id (disk_manager_ b) ∧
  ∃ rest, Disk.log (disk_manager_ b') = Disk.log (disk_manager_ b) ++ rest ∧
          Forall (λ e, Disk.is_write e = true) rest ∧ (length rest ≤ 1)%nat.
Proof.
  unfold FindReplace. destruct (free_list_ b) as [|f rest] eqn:Hfl.
  - intros H. inv_bind H. destruct a as [v r]. destruct v as [f|].
    + case_decide.
      * inv_bind H. injection H as <- <-.
        destruct (is_dirty_ a); simpl.
        -- split; [done|]. eexists; split; [done|]. split; [|simpl; lia].
           by repeat constructor.
        -- split; [done|]. exists []. rewrite app_nil_r. by repeat constructor.
      * injection H as <- <-. simpl. split; [done|]. exists [].
        rewrite app_nil_r. by repeat constructor.
    + injection H as <- <-. simpl. split; [done|]. exists [].
      rewrite app_nil_r. by repeat constructor.
  - intros [= <- <-]. simpl. split; [done|]. exists [].
    rewrite app_nil_r. by repeat constructor.
Qed.

(** With no free frame and nothing in the replacer, no frame is found. *)
Lemma FindReplace_none b :
  free_list_ b = [] → LRU.lruMap (replacer_ b) = ∅ → FindReplace b = Ok (None, b).
Proof.
  intros Hfl Hm. unfold FindReplace, LRU.Victim. rewrite Hfl.
  rewrite decide_True by done. simpl. by destruct b.
Qed.

(** C1 (the code departs from the claim): a page fetched into an empty pool
    is clean and pinned once; [UnpinPageImpl] with [is_dirty = true] succeeds
    and takes the pin off, but the page's dirty bit is still clear. *)
Theorem UnpinPageImpl_true_leaves_page_clean :
  ∃ b1 b2 : BufferPoolManager nat,
    FetchPageImpl 5 (create 1 (Disk.create 0%nat)) = Ok (Some 0, b1) ∧
    dirty b1 5 = Some false ∧ pins b1 5 = Some 1 ∧
    UnpinPageImpl 5 true b1 = Ok (true, b2) ∧
    dirty b2 5 = Some false ∧ pins b2 5 = Some 0.
Proof.
  do 2 eexists. split; [vm_compute; reflexivity|].
  split; [reflexivity|]. split; [reflexivity|].
  split; [vm_compute; reflexivity|]. split; reflexivity.
Qed.

(** C7: [DeletePageImpl] on an unmapped page deallocates the page on disk and
    returns true; on a mapped page with a positive pin count it returns
    false and the pool is unchanged; on any other mapped page it removes the
    page-table entry, appends the frame to the free list, deallocates the
    page on disk and returns true. *)
Theorem DeletePageImpl_cases b p :
  (page_table_ b !! p = None →
   ∃ b', DeletePageImpl p b = Ok (true, b') ∧
         Disk.log (disk_manager_ b') =
           Disk.log (disk_manager_ b) ++ [Disk.EvDeallocate p] ∧
         page_table_ b' = page_table_ b ∧ free_list_ b' = free_list_ b ∧
         pages_ b' = pages_ b ∧ replacer_ b' = replacer_ b) ∧
  (∀ f pg, page_table_ b !! p = Some f → frame f b = Ok pg → 0 < pin_count_ pg →
   DeletePageImpl p b = Ok (false, b)) ∧
  (∀ f pg, page_table_ b !! p = Some f → frame f b = Ok pg → ¬ 0 < pin_count_ pg →
   ∃ b', DeletePageImpl p b = Ok (true, b') ∧
         page_table_ b' = delete p (page_table_ b) ∧
         free_list_ b' = free_list_ b ++ [f] ∧
         Disk.log (disk_manager_ b') =
           Disk.log (disk_manager_ b) ++ [Disk.EvDeallocate p]).
Proof.
  unfold DeletePageImpl. split; [|split].
  - intros ->. by eexists.
  - intros f pg -> ->. simpl. intros Hpin. by rewrite decide_True.
  - intros f pg -> ->. simpl. intros Hpin. rewrite decide_False by done.
    by eexists.
Qed.

(** C8 (the code departs from the claim): after [NewPageImpl] on an empty
    pool page 0 is mapped and dirty; [FlushAllPagesImpl] leaves the pool as
    it is: the disk manager has received no write of page 0 and the page is
    still dirty. *)
Theorem FlushAllPagesImpl_writes_nothing :
  ∃ b1 : BufferPoolManager nat,
    NewPageImpl (create 1 (Disk.create 0%nat)) = Ok (Some (0, 0), b1) ∧
    dirty b1 0 = Some true ∧
    FlushAllPagesImpl b1 = b1 ∧
    existsb (Disk.written 0) (Disk.log (disk_manager_ (FlushAllPagesImpl b1))) = false ∧
    dirty (FlushAllPagesImpl b1) 0 = Some true.
Proof.
  eexists. split; [vm_compute; reflexivity|]. repeat split; reflexivity.
Qed.

(** C10: a call of [NewPageImpl] that returns has sent the disk manager
    exactly one [AllocatePage], before anything else, and no
    [DeallocatePage]: the log grows by the allocation of the next page id
    followed by at most a write-back.  When no frame is free and the
    replacer is empty the call returns [nullptr], and still the page id has
    been allocated and not deallocated. *)
Theorem NewPageImpl_allocates_first b :
  (∀ r b', NewPageImpl b = Ok (r, b') →
     Disk.next_page_id (disk_manager_ b') = Disk.next_page_id (disk_manager_ b) + 1 ∧
     ∃ rest,
       Disk.log (disk_manager_ b') =
         Disk.log (disk_manager_ b)
         ++ Disk.EvAllocate (Disk.next_page_id (disk_manager_ b)) :: rest ∧
       Forall (λ e, Disk.is_allocate e = false ∧ Disk.is_deallocate e = false) rest) ∧
  (free_list_ b = [] → LRU.lruMap (replacer_ b) = ∅ →
     ∃ b', NewPageImpl b = Ok (None, b') ∧
       Disk.next_page_id (disk_manager_ b') = Disk.next_page_id (disk_manager_ b) + 1 ∧
       Disk.log (disk_manager_ b') =
         Disk.log (disk_manager_ b)
         ++ [Disk.EvAllocate (Disk.next_page_id (disk_manager_ b))] ∧
       page_table_ b' = page_table_ b).
Proof.
  split.
  - intros r b'. unfold NewPageImpl. simpl. intros H. inv_bind H.
    destruct a as [fr b1]. apply FindReplace_disk in Ha as (Hnext & rest & Hlog & Hw & _).
    simpl in Hnext, Hlog.
    assert (Disk.next_page_id (disk_manager_ b') = Disk.next_page_id (disk_manager_ b1) ∧
            Disk.log (disk_manager_ b') = Disk.log (disk_manager_ b1)) as [-> ->].
    { destruct fr as [f|].
      - inv_bind H. by injection H as <- <-.
      - by injection H as <- <-. }
    split; [done|]. exists rest. rewrite Hlog, <- app_assoc. split; [done|].
    eapply Forall_impl; [exact Hw|]. intros [] [=]. done.
  - intros Hfl Hm. unfold NewPageImpl. simpl.
    rewrite FindReplace_none by done. simpl. by eexists.
Qed.

End BPM_claims.

(** A pool of two frames: page 0 is pinned once in frame 0, page 1 is
    unpinned in frame 1 (and tracked by the replacer), page 7 is unmapped. *)
Lemma DeletePageImpl_cases_witness :
  let b : BPM.BufferPoolManager nat :=
    BPM.mk 2 [BPM.mkPage 0 1 true 0%nat; BPM.mkPage 1 0 true 0%nat]
      (<[0 := 0]> (<[1 := 1]> ∅)) []
      (LRU.mk 2 [1] {[1]}) (Disk.create 0%nat) in
  (∃ b', BPM.DeletePageImpl 7 b = Ok (true, b') ∧
         Disk.log (BPM.disk_manager_ b') = [Disk.EvDeallocate 7]) ∧
  BPM.DeletePageImpl 0 b = Ok (false, b) ∧
  (∃ b', BPM.DeletePageImpl 1 b = Ok (true, b') ∧
         BPM.page_table_ b' !! 1 = None ∧ BPM.free_list_ b' = [1]).
Proof.
  intros b. split; [|split].
  - destruct (proj1 (DeletePageImpl_cases b 7)) as (b' & H & Hlog & _);
      [reflexivity|]. exists b'. split; [exact H|exact Hlog].
  - apply (proj1 (proj2 (DeletePageImpl_cases b 0)) 0 (BPM.mkPage 0 1 true 0%nat));
      [reflexivity|reflexivity|simpl; lia].
  - destruct (proj2 (proj2 (DeletePageImpl_cases b 1)) 1 (BPM.mkPage 1 0 true 0%nat))
      as (b' & H & Hpt & Hfl & _); [reflexivity|reflexivity|simpl; lia|].
    exists b'. split; [exact H|]. split; [|exact Hfl].
    rewrite Hpt. apply lookup_delete_eq.
Defined.

(** A pool whose only frame is pinned: the call fails after the allocation. *)
Lemma NewPageImpl_allocates_first_witness :
  let b : BPM.BufferPoolManager nat :=
    BPM.mk 1 [BPM.mkPage 0 1 true 0%nat] (<[0 := 0]> ∅) []
      (LRU.create 1) (Disk.mk 0%nat ∅ 1 [Disk.EvAllocate 0]) in
  ∃ b', BPM.NewPageImpl b = Ok (None, b') ∧
        Disk.log (BPM.disk_manager_ b') = [Disk.EvAllocate 0; Disk.EvAllocate 1].
Proof.
  intros b.
  destruct (proj2 (NewPageImpl_allocates_first b)) as (b' & H & _ & Hlog & _);
    [reflexivity|reflexivity|].
  exists b'. split; [exact H|exact Hlog].
Defined.

(** ** Maps in iteration order *)

Section AList_facts.
Context {K V : Type} `{EqDecision K}.
Implicit Types (m : list (K * V)) (k : K) (v d : V).

Lemma alist_find_app_l k m m' v :
  AList.find k m = Some v → AList.find k (m ++ m') = Some v.
Proof.
  induction m as [|[k' v'] m IH]; simpl; [done|]. case_decide; auto.
Qed.

Lemma alist_find_app_r k m m' :
  AList.find k m = None → AList.find k (m ++ m') = AList.find k m'.
Proof.
  induction m as [|[k' v'] m IH]; simpl; [done|]. case_decide; [done|auto].
Qed.

Lemma alist_find_None k m : AList.find k m = None ↔ k ∉ AList.keys m.
Proof.
  unfold AList.keys. induction m as [|[k' v'] m IH]; simpl.
  - split; [intros _; apply not_elem_of_nil | done].
  - rewrite not_elem_of_cons. case_decide; naive_solver.
Qed.

Lemma alist_find_Some_elem k m v : AList.find k m = Some v → (k, v) ∈ m.
Proof.
  induction m as [|[k' v'] m IH]; simpl; [done|].
  case_decide; [intros [= ->]; subst; by left | intros; right; auto].
Qed.

Lemma alist_elem_find k m v : NoDup (AList.keys m) → (k, v) ∈ m → AList.find k m = Some v.
Proof.
  unfold AList.keys. induction m as [|[k' v'] m IH]; simpl; [by intros _ ?%elem_of_nil|].
  intros [Hk Hnd]%NoDup_cons [[= -> ->]|Hin]%elem_of_cons.
  - by rewrite decide_True.
  - rewrite decide_False; [auto|]. intros ->. apply Hk.
    apply list_elem_of_fmap. by exists (k, v).
Qed.

Lemma alist_get_touch d k k' m :
  AList.get d k' (AList.touch d k m) = AList.get d k' m.
Proof.
  unfold AList.touch, AList.mem, AList.get.
  destruct (AList.find k m) as [x|] eqn:Hk; [done|].
  destruct (AList.find k' m) as [y|] eqn:Hk'.
  - by erewrite alist_find_app_l.
  - rewrite alist_find_app_r by done. simpl. by case_decide.
Qed.

Lemma alist_find_set k k' v m :
  AList.find k' (AList.set k v m) = if decide (k = k') then Some v else AList.find k' m.
Proof.
  induction m as [|[k0 v0] m IH]; simpl.
  - by repeat case_decide.
  - destruct (decide (k0 = k)) as [->|Hne]; simpl.
    + by repeat case_decide.
    + rewrite IH. repeat case_decide; congruence.
Qed.

Lemma alist_get_set d k k' v m :
  AList.get d k' (AList.set k v m) = if decide (k = k') then v else AList.get d k' m.
Proof. unfold AList.get. rewrite alist_find_set. by case_decide. Qed.

Lemma alist_keys_touch d k m :
  AList.keys (AList.touch d k m) = if AList.mem k m then AList.keys m else AList.keys m ++ [k].
Proof.
  unfold AList.touch, AList.keys. destruct (AList.mem k m); [done|].
  by rewrite fmap_app.
Qed.

Lemma alist_mem_true k m : AList.mem k m = true ↔ k ∈ AList.keys m.
Proof.
  unfold AList.mem. destruct (AList.find k m) eqn:Hf.
  - split; [|done]. intros _. destruct (decide (k ∈ AList.keys m)) as [|Hn]; [done|].
    apply alist_find_None in Hn. congruence.
  - apply alist_find_None in Hf. naive_solver.
Qed.

End AList_facts.

(** ** Lock manager: [Unlock] *)

Section Unlock_facts.
Import Lock.

Lemma queue_on_queue rid rid' f m :
  queue rid' (on_queue rid f m) = if decide (rid = rid') then f (queue rid m) else queue rid' m.
Proof. unfold queue, on_queue. simpl. apply alist_get_set. Qed.

Lemma queue_touch rid rid' m :
  queue rid' (set_lock_table (AList.touch empty_queue rid (lock_table_ m)) m) = queue rid' m.
Proof. unfold queue. simpl. by apply alist_get_touch. Qed.

(** [Unlock] leaves the request list of every queue as it was: the requests
    of the unlocking transaction are still there. *)
Lemma Unlock_request_queue t rid m r m' :
  Unlock t rid m = Ok (r, m') →
  ∀ rid', request_queue_ (queue rid' m') = request_queue_ (queue rid' m).
Proof.
  unfold Unlock. destruct (txn_map m !! t) as [txn|]; [|done].
  intros H rid'. rewrite <- (queue_touch rid rid' m).
  set (m1 := set_lock_table _ m) in *.
  destruct (decide (rid ∈ shared_lock_set_ txn));
    destruct (decide (rid ∈ exclusive_lock_set_ _)); injection H as <- <-;
    unfold queue at 1; simpl; fold (queue rid' m1);
    rewrite ?alist_get_set; repeat (case_decide; subst; simpl);
    repeat (unfold queue at 1; simpl; rewrite ?alist_get_set;
            repeat (case_decide; subst; simpl)); try done.
Qed.

(** What [Unlock] does, for every state in which the transaction is
    known: it returns true; the reading count of the record goes down by one
    when the transaction held the record in shared mode, the writing flag is
    cleared when it held it in exclusive mode, the condition variable is
    notified once, the record leaves both sets of the transaction, and a
    GROWING transaction becomes SHRINKING. *)
Lemma Unlock_effects t rid m txn :
  txn_map m !! t = Some txn →
  ∃ m' txn',
    Unlock t rid m = Ok (true, m') ∧
    reading_count_ (queue rid m') =
      (if decide (rid ∈ shared_lock_set_ txn)
       then reading_count_ (queue rid m) - 1 else reading_count_ (queue rid m)) ∧
    is_writting_ (queue rid m') =
      (if decide (rid ∈ exclusive_lock_set_ txn)
       then false else is_writting_ (queue rid m)) ∧
    cv_ (queue rid m') = S (cv_ (queue rid m)) ∧
    txn_map m' !! t = Some txn' ∧
    rid ∉ shared_lock_set_ txn' ∧ rid ∉ exclusive_lock_set_ txn' ∧
    state_ txn' = (if decide (state_ txn = GROWING) then SHRINKING else state_ txn).
Proof.
  intros Htxn. unfold Unlock. rewrite Htxn.
  rewrite <- (queue_touch rid rid m).
  set (m1 := set_lock_table _ m).
  destruct (decide (rid ∈ shared_lock_set_ txn)) as [Hs|Hs];
    destruct (decide (rid ∈ exclusive_lock_set_ _)) as [Hx|Hx]; simpl in Hx;
    eexists _, _; (split; [reflexivity|]);
    change (queue rid (set_txn ?t ?x ?m)) with (queue rid m);
    rewrite ?queue_on_queue, ?decide_True by done; simpl;
    rewrite ?decide_True, ?decide_False by done;
    rewrite lookup_insert_eq;
    (split; [reflexivity|]); (split; [reflexivity|]); (split; [reflexivity|]);
    (split; [reflexivity|]);
    (split; [destruct (decide (state_ txn = GROWING)); simpl; set_solver|]);
    (split; [destruct (decide (state_ txn = GROWING)); simpl; set_solver|]);
    destruct (decide (state_ txn = GROWING)); reflexivity.
Qed.

End Unlock_facts.

Section Unlock_claim.
Import Lock.

(** C6 (the code departs from the claim): a transaction takes a shared lock
    on a record and unlocks it.  After [Unlock] the reading count is back to
    0, the condition variable has been notified and the transaction is
    SHRINKING, but its granted request is still in the request queue of the
    record. *)
Theorem Unlock_leaves_request_in_queue :
  let rid : RID := (3, 0) in
  let m0 := mk [] [] {[ 1 := mkTxn GROWING REPEATABLE_READ ∅ ∅ ]} in
  ∃ m1 m2,
    LockShared 1 rid m0 = Ok (Returned true, m1) ∧
    request_queue_ (queue rid m1) = [mkRequest 1 SHARED true] ∧
    reading_count_ (queue rid m1) = 1 ∧
    Unlock 1 rid m1 = Ok (true, m2) ∧
    request_queue_ (queue rid m2) = [mkRequest 1 SHARED true] ∧
    reading_count_ (queue rid m2) = 0 ∧
    cv_ (queue rid m2) = 1%nat ∧
    state_ <$> txn_map m2 !! 1 = Some SHRINKING.
Proof.
  intros rid m0. do 2 eexists.
  split; [vm_compute; reflexivity|]. split; [reflexivity|]. split; [reflexivity|].
  split; [vm_compute; reflexivity|]. repeat split; reflexivity.
Qed.

End Unlock_claim.

(** ** Lock manager: the waits-for graph *)

Section Graph_facts.
Import Lock.
Implicit Types (g : list (txn_id_t * list txn_id_t)) (l c : list txn_id_t).

Lemma adj_touch g v u : adj (AList.touch [] v g) u = adj g u.
Proof. apply alist_get_touch. Qed.

Lemma adj_nonempty_key g a b : edge g a b → a ∈ AList.keys g.
Proof.
  unfold edge, adj, AList.get. intros Hb.
  destruct (decide (a ∈ AList.keys g)) as [|Hn]; [done|].
  apply alist_find_None in Hn. rewrite Hn in Hb. simpl in Hb.
  by apply elem_of_nil in Hb.
Qed.

Lemma edge_vertices g a b : edge g a b → a ∈ vertices g ∧ b ∈ vertices g.
Proof.
  intros Hb. split.
  - apply elem_of_union_l, elem_of_list_to_set. by eapply adj_nonempty_key.
  - apply elem_of_union_r, elem_of_list_to_set.
    unfold edge, adj, AList.get in Hb.
    destruct (AList.find a g) as [vs|] eqn:Hf; simpl in Hb;
      [|by apply elem_of_nil in Hb].
    apply alist_find_Some_elem in Hf.
    apply list_elem_of_join. exists vs. split; [done|].
    apply list_elem_of_fmap. by exists (a, vs).
Qed.

Lemma vertices_touch g v : v ∈ vertices g → vertices (AList.touch [] v g) = vertices g.
Proof.
  intros Hv. unfold vertices, AList.touch, AList.keys.
  destruct (AList.mem v g); [done|].
  rewrite !fmap_app, join_app, !list_to_set_app_L. simpl.
  unfold vertices, AList.keys in Hv. set_solver.
Qed.

Lemma wf_graph_touch g v : wf_graph g → wf_graph (AList.touch [] v g).
Proof.
  intros [Hk Hv]. unfold AList.touch.
  destruct (AList.mem v g) eqn:Hm; [done|]. split.
  - unfold AList.keys in *. rewrite fmap_app. simpl.
    apply NoDup_app. split; [done|]. split; [|apply NoDup_singleton].
    intros x Hx ->%list_elem_of_singleton.
    apply alist_mem_true in Hx. congruence.
  - intros k vs [Hin|Hin]%elem_of_app; [eauto|].
    apply list_elem_of_singleton in Hin as [= -> ->]. constructor.
Qed.

Lemma is_path_app_r g l1 l2 : is_path g (l1 ++ l2) → is_path g l2.
Proof.
  induction l1 as [|a l1 IH]; simpl; [done|].
  destruct (l1 ++ l2) eqn:E; [|naive_solver].
  intros _. apply app_eq_nil in E as [_ ->]. done.
Qed.

Lemma is_path_app_l g l1 l2 : is_path g (l1 ++ l2) → is_path g l1.
Proof.
  induction l1 as [|a l1 IH]; simpl; [done|].
  destruct l1 as [|b l1]; [done|]. simpl. naive_solver.
Qed.

Lemma is_path_snoc g l v :
  is_path g l → (∀ p, last l = Some p → edge g p v) → is_path g (l ++ [v]).
Proof.
  induction l as [|a l IH]; simpl; [done|].
  destruct l as [|b l]; simpl.
  - intros _ H. split; [by apply H|done].
  - intros [Hab Hp] H. split; [done|]. apply IH; [done|]. exact H.
Qed.

Lemma is_path_rtc g a l z :
  is_path g (a :: l) → last (a :: l) = Some z → rtc (edge g) a z.
Proof.
  revert a. induction l as [|b l IH]; intros a.
  - simpl. intros _ [= ->]. done.
  - intros [Hab Hp] Hl. eapply rtc_l; [exact Hab|].
    apply IH; [done|]. by rewrite last_cons_cons in Hl.
Qed.

Lemma is_cycle_tc g c : is_cycle g c → ∃ a, tc (edge g) a a.
Proof.
  intros (a & z & Hh & Hl & Hp & Hza). exists a.
  destruct c as [|a' l]; [done|]. injection Hh as ->.
  eapply tc_rtc_l; [by eapply is_path_rtc|]. by apply tc_once.
Qed.

Lemma same_edges_cycle g g' c : same_edges g g' → is_cycle g c → is_cycle g' c.
Proof.
  intros He (a & z & Hh & Hl & Hp & Hza). exists a, z.
  split; [done|]. split; [done|]. split.
  - clear Hh Hl. induction c as [|x c IH]; simpl; [done|].
    destruct c as [|y c]; [done|]. destruct Hp as [Hxy Hp].
    split; [|by apply IH]. unfold edge. by rewrite He.
  - unfold edge. by rewrite He.
Qed.

Lemma foldl_max_le (x : Z) l : x ≤ foldl Z.max x l.
Proof.
  revert x. induction l as [|y l IH]; intros x; simpl; [lia|].
  etrans; [|apply IH]. lia.
Qed.

Lemma foldl_max_largest (x : Z) l : largest (foldl Z.max x l) (x :: l).
Proof.
  revert x. induction l as [|y l IH]; intros x; simpl.
  - split; [by left|]. intros z ->%list_elem_of_singleton. done.
  - destruct (IH (Z.max x y)) as [Hin Hle]. split.
    + apply elem_of_cons in Hin as [Heq|Hin].
      * rewrite Heq. destruct (Z.max_spec x y) as [[_ ->]|[_ ->]].
        -- right. by left.
        -- by left.
      * right. by right.
    + intros z [->|[->|Hz]%elem_of_cons]%elem_of_cons.
      * etrans; [|apply foldl_max_le]. lia.
      * etrans; [|apply foldl_max_le]. lia.
      * apply Hle. by right.
Qed.

Lemma scan_trial_true_notin child l t :
  child ∉ l → scan_trial child l true t = (true, foldl Z.max t l).
Proof.
  revert t. induction l as [|i l IH]; intros t Hn; simpl; [done|].
  apply not_elem_of_cons in Hn as [Hne Hn]. rewrite decide_False by done. auto.
Qed.

Lemma scan_trial_notin child l t :
  child ∉ l → scan_trial child l false t = (false, t).
Proof.
  induction l as [|i l IH]; intros Hn; simpl; [done|].
  apply not_elem_of_cons in Hn as [Hne Hn]. rewrite decide_False by done. auto.
Qed.

(** When [child] is on the stack, the scan leaves in [*txn_id] the largest
    of the stack entries from [child] on. *)
Lemma scan_trial_in child pre post found t :
  child ∉ post →
  scan_trial child (pre ++ child :: post) found t = (true, foldl Z.max child post).
Proof.
  intros Hn. revert found t. induction pre as [|i pre IH]; intros found t; simpl.
  - rewrite decide_True by done. by apply scan_trial_true_notin.
  - case_decide; [apply IH|]. destruct found; apply IH.
Qed.

End Graph_facts.

Section Search_facts.
Import Lock.
Variable g0 : list (txn_id_t * list txn_id_t).
Implicit Types (s : Search) (g : list (txn_id_t * list txn_id_t)).

Lemma graph_ext_refl : graph_ext g0 g0.
Proof. by split. Qed.

Lemma graph_ext_touch g v :
  graph_ext g0 g → v ∈ vertices g0 → graph_ext g0 (AList.touch [] v g).
Proof.
  intros (He & Hv & Hwf) Hin. split; [|split].
  - intros a. rewrite adj_touch. apply He.
  - rewrite vertices_touch; [done|]. by rewrite Hv.
  - intros H. by apply wf_graph_touch, Hwf.
Qed.

Lemma finished_rtc s u w :
  search_inv g0 s → finished s u → rtc (edge g0) u w → finished s w.
Proof.
  intros Hinv Hu Hr. induction Hr as [|x y z Hxy _ IH]; [done|].
  apply IH. by eapply inv_closed.
Qed.

Lemma search_inv_push s v :
  search_inv g0 s → v ∉ visited s → v ∈ vertices g0 → is_path g0 (trial s ++ [v]) →
  search_inv g0 (mkSearch (trial s ++ [v]) ({[v]} ∪ visited s) (out s)
                   (AList.touch [] v (graph s))).
Proof.
  intros [Hg Hnd Hvis Hp Hcl Hac] Hv Hin Hpath.
  assert (v ∉ trial s) as Hvt by (intros H; by apply Hv, Hvis).
  assert (∀ u, finished (mkSearch (trial s ++ [v]) ({[v]} ∪ visited s) (out s)
                           (AList.touch [] v (graph s))) u ↔ finished s u ∧ u ≠ v) as Hfin.
  { intros u. unfold finished. simpl. set_solver. }
  split; simpl.
  - by apply graph_ext_touch.
  - apply NoDup_app. split; [done|]. split; [|apply NoDup_singleton].
    intros x Hx ->%list_elem_of_singleton. done.
  - intros x [Hx| ->%list_elem_of_singleton]%elem_of_app; set_solver.
  - done.
  - intros u w [Hu Hne]%Hfin Huw. apply Hfin.
    pose proof (Hcl u w Hu Huw) as Hw. split; [done|].
    intros ->. by destruct Hw.
  - intros u [Hu _]%Hfin. by apply Hac.
Qed.

Lemma search_inv_pop tr v vis o g :
  search_inv g0 (mkSearch (tr ++ [v]) vis o g) →
  (∀ w, edge g0 v w → finished (mkSearch (tr ++ [v]) vis o g) w) →
  search_inv g0 (mkSearch tr vis o g).
Proof.
  intros Hinv Hch. pose proof Hinv as [Hg Hnd Hvis Hp Hcl Hac]. simpl in *.
  apply NoDup_app in Hnd as (Hnd & Hdis & _).
  assert (v ∉ tr) as Hvt.
  { intros H. apply (Hdis v H). by apply list_elem_of_singleton. }
  assert (∀ u, finished (mkSearch tr vis o g) u ↔
               finished (mkSearch (tr ++ [v]) vis o g) u ∨ u = v) as Hfin.
  { intros u. unfold finished. simpl. split.
    - intros [Hu Hn]. destruct (decide (u = v)); [by right|left].
      split; [done|]. set_solver.
    - intros [[Hu Hn]| ->]; [set_solver|]. split; [|done].
      apply Hvis. set_solver. }
  split; simpl.
  - done.
  - done.
  - intros x Hx. apply Hvis. set_solver.
  - by eapply is_path_app_l.
  - intros u w [Hu| ->]%Hfin Huw; apply Hfin; left; [by eapply Hcl|by apply Hch].
  - intros u [Hu| ->]%Hfin; [by apply Hac|].
    intros Htc. inversion Htc as [x y Hxy|x y z Hxy Hyz]; subst.
    + apply Hch in Hxy as [_ Hn]. simpl in Hn. set_solver.
    + pose proof (Hch _ Hxy) as Hy.
      apply (finished_rtc _ _ v Hinv) in Hy; [|by apply tc_rtc].
      destruct Hy as [_ Hn]. simpl in Hn. set_solver.
Qed.

End Search_facts.

Section Search_loop.
Import Lock.
Variable g0 : list (txn_id_t * list txn_id_t).
Variable rec : txn_id_t → Search → option (bool * Search).
Variable n : nat.
Hypothesis Hrec : ∀ c s,
  search_inv g0 s → c ∉ visited s → c ∈ vertices g0 →
  is_path g0 (trial s ++ [c]) → (unvisited g0 s < n)%nat →
  ∃ r s', rec c s = Some (r, s') ∧ graph_ext g0 (graph s') ∧
    if r : bool then found_cycle g0 s'
    else search_inv g0 s' ∧ trial s' = trial s ∧ visited s ⊆ visited s' ∧
         c ∈ visited s' ∧ out s' = out s.

Lemma unvisited_mono s s' :
  visited s ⊆ visited s' → (unvisited g0 s' ≤ unvisited g0 s)%nat.
Proof. intros H. apply subseteq_size. set_solver. Qed.

Lemma dfs_children_spec children : ∀ s tr v,
  search_inv g0 s → trial s = tr ++ [v] →
  (∀ c, c ∈ children → edge g0 v c) →
  (∀ w, edge g0 v w → w ∈ children ∨ finished s w) →
  (unvisited g0 s < n)%nat →
  ∃ r s', dfs_children rec children s = Some (r, s') ∧ graph_ext g0 (graph s') ∧
    if r : bool then found_cycle g0 s'
    else search_inv g0 s' ∧ trial s' = tr ∧ visited s ⊆ visited s' ∧ out s' = out s.
Proof.
  induction children as [|child rest IH]; intros s tr v Hinv Htr Hch Hdone Hn.
  - destruct s as [tr0 vis o g]. simpl in *. subst tr0.
    exists false. eexists. split; [done|]. simpl. rewrite removelast_last.
    split; [apply Hinv|]. split; [|done].
    eapply search_inv_pop; [exact Hinv|]. intros w Hw.
    destruct (Hdone w Hw) as [?%elem_of_nil|]; done.
  - simpl. destruct (decide (child ∈ trial s)) as [Hin|Hnin].
    + apply list_elem_of_split in Hin as (pre & post & Hsplit).
      assert (child ∉ post) as Hpost.
      { pose proof (inv_nodup _ _ Hinv) as Hnd. rewrite Hsplit in Hnd.
        apply NoDup_app in Hnd as (_ & _ & Hnd). by apply NoDup_cons in Hnd as [? _]. }
      rewrite Hsplit, scan_trial_in by done.
      exists true. eexists. split; [done|]. simpl. split; [apply Hinv|].
      exists pre, (child :: post). split; [done|]. split; [|apply foldl_max_largest].
      exists child, v. split; [done|]. split.
      { assert (last (pre ++ child :: post) = Some v) as Hl.
        { rewrite <- Hsplit, Htr. apply last_snoc. }
        rewrite last_app in Hl.
        destruct (last (child :: post)) eqn:E; [done|]. by apply last_None in E. }
      split; [|apply Hch; by left].
      eapply is_path_app_r. rewrite <- Hsplit. apply Hinv.
    + rewrite scan_trial_notin by done.
      assert (mkSearch (trial s) (visited s) (out s) (graph s) = s) as -> by by destruct s.
      case_decide as Hvis.
      * eapply IH; try done.
        -- intros c Hc. apply Hch. by right.
        -- intros w Hw. destruct (Hdone w Hw) as [[->|H]%elem_of_cons|H]; auto.
           by right.
      * destruct (Hrec child s) as (r & s1 & Hr & Hg1 & Hpost); try done.
        { apply (edge_vertices g0 v). apply Hch. by left. }
        { apply is_path_snoc; [apply Hinv|]. rewrite Htr, last_snoc.
          intros p [= <-]. apply Hch. by left. }
        rewrite Hr. destruct r.
        { exists true, s1. done. }
        destruct Hpost as (Hinv1 & Htr1 & Hsub & Hc1 & Hout).
        destruct (IH s1 tr v) as (r & s' & Hr' & Hg' & Hpost'); try done.
        -- by rewrite Htr1.
        -- intros c Hc. apply Hch. by right.
        -- intros w Hw. destruct (Hdone w Hw) as [[->|H]%elem_of_cons|[H1 H2]].
           ++ right. split; [done|]. rewrite Htr1. done.
           ++ by left.
           ++ right. split; [set_solver|]. by rewrite Htr1.
        -- eapply Nat.le_lt_trans; [by apply unvisited_mono|done].
        -- exists r, s'. split; [done|]. split; [done|]. destruct r; [done|].
           destruct Hpost' as (? & ? & Hs' & Ho').
           split; [done|]. split; [done|]. split; [set_solver|congruence].
Qed.

End Search_loop.

Section Search_spec.
Import Lock.
Variable g0 : list (txn_id_t * list txn_id_t).

(** [dfs] from an unvisited vertex returns when the bound exceeds the
    number of unvisited vertices.  When it returns true the stack ends with
    a cycle and [*txn_id] is the largest vertex of that cycle; when it
    returns false the stack and [*txn_id] are as before and the vertex is
    finished. *)
Lemma dfs_spec fuel : ∀ v s,
  search_inv g0 s → v ∉ visited s → v ∈ vertices g0 →
  is_path g0 (trial s ++ [v]) → (unvisited g0 s < fuel)%nat →
  ∃ r s', dfs fuel v s = Some (r, s') ∧ graph_ext g0 (graph s') ∧
    if r : bool then found_cycle g0 s'
    else search_inv g0 s' ∧ trial s' = trial s ∧ visited s ⊆ visited s' ∧
         v ∈ visited s' ∧ out s' = out s.
Proof.
  induction fuel as [|fuel IH]; intros v s Hinv Hv Hin Hp Hn; [lia|].
  simpl.
  set (s1 := mkSearch (trial s ++ [v]) ({[v]} ∪ visited s) (out s)
               (AList.touch [] v (graph s))).
  assert (search_inv g0 s1) as Hinv1 by by apply search_inv_push.
  assert (adj (AList.touch [] v (graph s)) v = adj g0 v) as ->.
  { apply (inv_graph _ _ Hinv1). }
  destruct (dfs_children_spec g0 (dfs fuel) fuel IH (adj g0 v) s1 (trial s) v)
    as (r & s' & Hr & Hg & Hpost); try done.
  - intros w Hw. by left.
  - assert (unvisited g0 s1 < unvisited g0 s)%nat; [|lia].
    apply subset_size. unfold s1. simpl. set_solver.
  - exists r, s'. split; [done|]. split; [done|]. destruct r; [done|].
    destruct Hpost as (? & ? & Hsub & ?). unfold s1 in Hsub. simpl in Hsub.
    split; [done|]. split; [done|]. split; [set_solver|]. split; [set_solver|done].
Qed.

Lemma dfs_children_skip rec children s :
  (∀ c, c ∈ children → c ∉ trial s ∧ c ∈ visited s) →
  dfs_children rec children s =
    Some (false, mkSearch (removelast (trial s)) (visited s) (out s) (graph s)).
Proof.
  induction children as [|c rest IH]; intros H; simpl; [done|].
  destruct (H c) as [Hn Hv]; [by left|].
  rewrite scan_trial_notin by done. simpl.
  rewrite decide_True by done.
  assert (mkSearch (trial s) (visited s) (out s) (graph s) = s) as -> by by destruct s.
  apply IH. intros c' Hc'. apply H. by right.
Qed.

(** [HasCycle] starts a search from every key, visited or not: from a
    finished vertex the search returns false at once. *)
Lemma dfs_finished fuel v vis o g :
  search_inv g0 (mkSearch [] vis o g) → v ∈ visited (mkSearch [] vis o g) →
  v ∈ vertices g0 →
  ∃ g', dfs (S fuel) v (mkSearch [] vis o g) = Some (false, mkSearch [] vis o g') ∧
        search_inv g0 (mkSearch [] vis o g').
Proof.
  intros Hinv Hv Hin. simpl in Hv. simpl.
  assert (adj (AList.touch [] v g) v = adj g0 v) as ->.
  { rewrite adj_touch. apply (inv_graph _ _ Hinv). }
  assert ({[v]} ∪ vis = vis) as -> by set_solver.
  assert (finished (mkSearch [] vis o g) v) as Hf.
  { split; [done|]. apply not_elem_of_nil. }
  rewrite dfs_children_skip.
  - simpl. eexists. split; [done|].
    destruct Hinv as [Hg ? ? ? ? ?]. split; try done. by apply graph_ext_touch.
  - simpl. intros c Hc.
    pose proof (inv_closed _ _ Hinv v c Hf Hc) as [Hcv _]. split; [|done].
    intros ->%list_elem_of_singleton.
    apply (inv_acyclic _ _ Hinv v Hf). by apply tc_once.
Qed.

Lemma HasCycle_from_spec fuel starts : ∀ vis o g,
  search_inv g0 (mkSearch [] vis o g) →
  (∀ v, v ∈ starts → v ∈ vertices g0) →
  (size (vertices g0) < fuel)%nat →
  ∃ r o' g', HasCycle_from fuel starts vis o g = Some (r, o', g') ∧
    graph_ext g0 g' ∧
    if r : bool then ∃ cyc, is_cycle g0 cyc ∧ largest o' cyc
    else o' = o ∧ ∃ vis', search_inv g0 (mkSearch [] vis' o' g') ∧
         vis ⊆ vis' ∧ ∀ v, v ∈ starts → v ∈ vis'.
Proof.
  induction starts as [|v starts IH]; intros vis o g Hinv Hst Hn.
  - exists false, o, g. split; [done|]. split; [apply Hinv|]. split; [done|].
    exists vis. split; [done|]. split; [done|]. by intros v ?%elem_of_nil.
  - cbn [HasCycle_from]. destruct (decide (v ∈ vis)) as [Hv|Hv].
    + destruct fuel as [|fuel]; [lia|].
      destruct (dfs_finished fuel v vis o g) as (g' & Hd & Hinv'); try done.
      { apply Hst. by left. }
      rewrite Hd. cbn [visited out graph].
      destruct (IH vis o g') as (r & o' & g'' & -> & Hg & Hpost); try done.
      { intros w Hw. apply Hst. by right. }
      exists r, o', g''. split; [done|]. split; [done|]. destruct r; [done|].
      destruct Hpost as (-> & vis' & ? & ? & Hall). split; [done|]. exists vis'.
      split; [done|]. split; [done|].
      intros w [->|Hw]%elem_of_cons; [set_solver|auto].
    + destruct (dfs_spec fuel v (mkSearch [] vis o g)) as (r & s' & Hd & Hg & Hpost);
        try done.
      { apply Hst. by left. }
      { eapply Nat.le_lt_trans; [|exact Hn]. apply subseteq_size. set_solver. }
      rewrite Hd. destruct r.
      { exists true. do 2 eexists. split; [done|]. split; [done|].
        destruct Hpost as (pre & cyc & _ & ? & ?). by exists cyc. }
      destruct Hpost as (Hinv' & Htr & Hsub & Hvs & Hout). simpl in *.
      destruct s' as [tr' vis' o' g']. simpl in *. subst tr' o'.
      cbn [visited out graph].
      destruct (IH vis' o g') as (r & o' & g'' & -> & Hg' & Hpost); try done.
      { intros w Hw. apply Hst. by right. }
      exists r, o', g''. split; [done|]. split; [done|]. destruct r; [done|].
      destruct Hpost as (-> & vis'' & ? & ? & Hall). split; [done|]. exists vis''.
      split; [done|]. split; [set_solver|].
      intros w [->|Hw]%elem_of_cons; [set_solver|auto].
Qed.

End Search_spec.

Section Detection.
Import Lock.
Implicit Types (g : list (txn_id_t * list txn_id_t)) (m : LockManager).

(** [HasCycle] returns when the bound exceeds the number of vertices; it
    returns true with the largest vertex of a cycle, and it returns false
    only for a graph without cycle. *)
Lemma HasCycle_spec g fuel t :
  (size (vertices g) < fuel)%nat →
  ∃ r t' g', HasCycle fuel t g = Some (r, t', g') ∧ graph_ext g g' ∧
    if r : bool then ∃ cyc, is_cycle g cyc ∧ largest t' cyc else acyclic g.
Proof.
  intros Hn. unfold HasCycle.
  destruct (HasCycle_from_spec g fuel (AList.keys g) ∅ t g)
    as (r & t' & g' & Hr & Hg & Hpost); try done.
  - split; simpl;
      [apply graph_ext_refl | constructor | by intros x ?%elem_of_nil | done
      | intros u w [? _]; set_solver | intros u [? _]; set_solver].
  - intros v Hv. by apply elem_of_union_l, elem_of_list_to_set.
  - exists r, t', g'. split; [done|]. split; [done|]. destruct r; [done|].
    destruct Hpost as (_ & vis' & Hinv & _ & Hall).
    intros c [a Ha]%is_cycle_tc.
    assert (∃ b, edge g a b) as [b Hab] by (inversion Ha; eauto).
    apply (inv_acyclic _ _ Hinv a); [|done].
    split; [|apply not_elem_of_nil]. simpl. apply Hall.
    by eapply adj_nonempty_key.
Qed.

Lemma erase_first_elem v l x : NoDup l → x ∈ erase_first v l ↔ x ∈ l ∧ x ≠ v.
Proof. apply (erase_node_elem v l x). Qed.

Lemma erase_first_NoDup v l : NoDup l → NoDup (erase_first v l).
Proof. apply (erase_node_NoDup v l). Qed.

Lemma adj_purge v g u :
  adj (purge v g) u = if decide (u = v) then [] else erase_first v (adj g u).
Proof.
  unfold adj, AList.get. induction g as [|[k vs] g IH]; simpl.
  - by case_decide.
  - destruct (decide (k = v)) as [->|Hkv]; simpl.
    + rewrite IH. repeat case_decide; congruence.
    + destruct (decide (k = u)) as [->|Hku]; simpl.
      * by rewrite decide_False.
      * apply IH.
Qed.

Lemma keys_purge v g : AList.keys (purge v g) = filter (λ k, k ≠ v) (AList.keys g).
Proof.
  unfold AList.keys. induction g as [|[k vs] g IH]; simpl; [done|].
  destruct (decide (k = v)) as [->|Hkv].
  - rewrite filter_cons_False by naive_solver. done.
  - rewrite filter_cons_True by done. simpl. by f_equal.
Qed.

Lemma elem_of_purge v g k vs :
  (k, vs) ∈ purge v g → k ≠ v ∧ ∃ vs', (k, vs') ∈ g ∧ vs = erase_first v vs'.
Proof.
  induction g as [|[k' vs'] g IH]; simpl; [by intros ?%elem_of_nil|].
  destruct (decide (k' = v)) as [->|Hkv].
  - intros (? & vs1 & ? & ?)%IH. split; [done|]. exists vs1. split; [by right|done].
  - intros [[= -> ->]|(? & vs1 & ? & ?)%IH]%elem_of_cons.
    + split; [done|]. exists vs'. split; [by left|done].
    + split; [done|]. exists vs1. split; [by right|done].
Qed.

Lemma wf_graph_purge v g : wf_graph g → wf_graph (purge v g).
Proof.
  intros [Hk Hv]. split.
  - rewrite keys_purge. by apply NoDup_filter.
  - intros k vs (_ & vs' & Hin & ->)%elem_of_purge. eapply erase_first_NoDup, Hv, Hin.
Qed.

Lemma vertices_purge v g :
  wf_graph g → vertices (purge v g) ⊆ vertices g ∖ {[v]}.
Proof.
  intros [Hk Hv] x. unfold vertices.
  rewrite elem_of_difference, !elem_of_union, !elem_of_list_to_set, keys_purge.
  rewrite list_elem_of_filter, !list_elem_of_join, not_elem_of_singleton.
  intros [[Hne Hx]|(vs & Hx & Hvs)]; [by auto|].
  apply list_elem_of_fmap in Hvs as ([k vs0] & -> & Hin). simpl in Hx.
  apply elem_of_purge in Hin as (_ & vs' & Hin & ->).
  apply erase_first_elem in Hx as [Hx Hne]; [|by eapply Hv].
  split; [|done]. right. exists vs'. split; [done|].
  apply list_elem_of_fmap. by exists (k, vs').
Qed.

Lemma vertices_cycle g c v : is_cycle g c → largest v c → v ∈ vertices g.
Proof.
  intros (a & z & Hh & Hl & Hp & Hza) [Hin _].
  clear Hh. revert z Hl Hza. induction c as [|x c IH]; intros z Hl Hza.
  - by apply elem_of_nil in Hin.
  - apply elem_of_cons in Hin as [->|Hin].
    + destruct c as [|y c].
      * injection Hl as ->. by destruct (edge_vertices _ _ _ Hza).
      * destruct Hp as [Hxy _]. by destruct (edge_vertices _ _ _ Hxy).
    + destruct c as [|y c]; [by apply elem_of_nil in Hin|].
      destruct Hp as [_ Hp]. rewrite last_cons_cons in Hl. by eapply IH.
Qed.

End Detection.

Section AddEdge_facts.
Import Lock.
Implicit Types (g : list (txn_id_t * list txn_id_t)).

Lemma alist_keys_set {V} (k : txn_id_t) (v : V) (m : list (txn_id_t * V)) :
  k ∈ AList.keys m → AList.keys (AList.set k v m) = AList.keys m.
Proof.
  unfold AList.keys. induction m as [|[k' v'] m IH]; simpl.
  - by intros ?%elem_of_nil.
  - intros Hin. case_decide as Hk; simpl; [by subst|]. f_equal. apply IH.
    apply elem_of_cons in Hin as [->|Hin]; [done|exact Hin].
Qed.

Lemma alist_elem_set {V} (k k' : txn_id_t) (v v' : V) (m : list (txn_id_t * V)) :
  (k', v') ∈ AList.set k v m → (k' = k ∧ v' = v) ∨ (k', v') ∈ m.
Proof.
  induction m as [|[k0 v0] m IH]; simpl.
  - intros [= -> ->]%list_elem_of_singleton. by left.
  - case_decide.
    + intros [[= -> ->]|Hin]%elem_of_cons; [by left|]. right. by right.
    + intros [[= -> ->]|Hin]%elem_of_cons; [right; by left|].
      destruct (IH Hin) as [?|?]; [by left|]. right. by right.
Qed.

(** The graphs that [RunCycleDetection] builds are well formed: it starts
    from the empty graph and adds edges with [AddEdge]. *)
Lemma wf_graph_nil : wf_graph [].
Proof. split; [constructor|]. by intros k vs ?%elem_of_nil. Qed.

Lemma wf_graph_AddEdge t1 t2 g : wf_graph g → wf_graph (AddEdge t1 t2 g).
Proof.
  intros [Hk Hv]. unfold AddEdge.
  destruct (AList.mem t1 g) eqn:Hmem.
  - case_bool_decide as Hin; [done|].
    apply alist_mem_true in Hmem. split.
    + by rewrite alist_keys_set.
    + intros k vs [[-> ->]|Hin']%alist_elem_set; [|by eapply Hv].
      apply NoDup_app. split; [|split; [|apply NoDup_singleton]].
      * unfold adj, AList.get. destruct (AList.find t1 g) as [ws|] eqn:Hf; simpl.
        -- eapply Hv. by apply alist_find_Some_elem.
        -- constructor.
      * intros x Hx ->%list_elem_of_singleton. done.
  - split.
    + unfold AList.keys in *. rewrite fmap_app. simpl.
      apply NoDup_app. split; [done|]. split; [|apply NoDup_singleton].
      intros x Hx ->%list_elem_of_singleton.
      apply alist_mem_true in Hx. congruence.
    + intros k vs [Hin|Hin]%elem_of_app; [by eapply Hv|].
      apply list_elem_of_singleton in Hin as [= -> ->]. apply NoDup_singleton.
Qed.

Lemma wf_graph_add_edges froms tos g : wf_graph g → wf_graph (add_edges froms tos g).
Proof.
  unfold add_edges. revert g. induction froms as [|a froms IH]; intros g Hwf; simpl; [done|].
  apply IH. clear IH. revert g Hwf. induction tos as [|b tos IH]; intros g Hwf; simpl; [done|].
  by apply IH, wf_graph_AddEdge.
Qed.

End AddEdge_facts.

Section Detection_loop.
Import Lock.
Implicit Types (g : list (txn_id_t * list txn_id_t)) (m : LockManager).

Lemma same_edges_sym g g' : same_edges g g' → same_edges g' g.
Proof. intros H a. by rewrite H. Qed.

Lemma Resolves_acyclic g vs g' : Resolves g vs g' → acyclic g'.
Proof.
  induction 1 as [g g' Hac He|]; [|done].
  intros c Hc. apply (Hac c). eapply same_edges_cycle; [|exact Hc].
  by apply same_edges_sym.
Qed.

(** The [while (HasCycle(&txn_id))] loop ends, as soon as the bounds exceed
    the number of transactions in the graph: each round aborts the largest
    transaction id of a cycle of the current graph and purges it, and the
    loop stops on a graph without cycle. *)
Lemma break_cycles_spec rounds : ∀ fuel rid t m,
  wf_graph (waits_for_ m) →
  (size (vertices (waits_for_ m)) < fuel)%nat →
  (size (vertices (waits_for_ m)) ≤ rounds)%nat →
  (∀ v, v ∈ vertices (waits_for_ m) → is_Some (txn_map m !! v)) →
  ∃ vs m', break_cycles fuel rounds rid t m = Ok (vs, m') ∧
    Resolves (waits_for_ m) vs (waits_for_ m') ∧
    (∀ v, v ∈ vs → state_ <$> txn_map m' !! v = Some ABORTED) ∧
    (∀ u, state_ <$> txn_map m !! u = Some ABORTED →
          state_ <$> txn_map m' !! u = Some ABORTED).
Proof.
  induction rounds as [|rounds IH]; intros fuel rid t m Hwf Hfuel Hrounds Hreg;
    destruct (HasCycle_spec (waits_for_ m) fuel t Hfuel)
      as (r & t' & g' & Hhc & (Hedges & Hvert & Hwf') & Hpost).
  all: destruct r.
  - destruct Hpost as (cyc & Hcyc & Hmax).
    pose proof (vertices_cycle _ _ _ Hcyc Hmax) as Hin.
    assert (size (vertices (waits_for_ m)) = 0%nat) as Hz by lia.
    apply size_empty_iff in Hz. set_solver.
  - simpl. rewrite Hhc. exists [], (set_waits_for g' m).
    split; [done|]. split; [by constructor|]. split; [|done].
    by intros v ?%elem_of_nil.
  - destruct Hpost as (cyc & Hcyc & Hmax).
    pose proof (vertices_cycle _ _ _ Hcyc Hmax) as Hin.
    destruct (Hreg _ Hin) as [txn Htxn].
    simpl. rewrite Hhc. simpl. rewrite Htxn.
    set (m1 := set_waits_for _ (on_queue rid notify_all _)).
    assert (vertices (waits_for_ m1) ⊂ vertices (waits_for_ m)) as Hless.
    { simpl. pose proof (vertices_purge t' g' (Hwf' Hwf)) as Hsub.
      rewrite Hvert in Hsub. set_solver. }
    apply subset_size in Hless.
    destruct (IH fuel rid t' m1) as (vs & m' & Hbc & Hres & Hab & Hkeep).
    + simpl. apply wf_graph_purge. auto.
    + lia.
    + lia.
    + intros v Hv. simpl.
      apply vertices_purge in Hv; [|auto]. rewrite Hvert in Hv.
      apply lookup_insert_is_Some'. right. apply Hreg. set_solver.
    + rewrite Hbc. exists (t' :: vs), m'. split; [done|].
      assert (state_ <$> txn_map m1 !! t' = Some ABORTED) as Ht'.
      { simpl. by rewrite lookup_insert_eq. }
      split; [|split].
      * by econstructor.
      * intros v [->|Hv]%elem_of_cons; auto.
      * intros u Hu. apply Hkeep. simpl.
        destruct (decide (t' = u)) as [->|Hne]; [done|].
        by rewrite lookup_insert_ne.
  - simpl. rewrite Hhc. exists [], (set_waits_for g' m).
    split; [done|]. split; [by constructor|]. split; [|done].
    by intros v ?%elem_of_nil.
Qed.


End Detection_loop.


(** The deadlock of the specification: transaction 1 holds record (1,0) and
    transaction 2 holds record (2,0), both in exclusive mode, and each asks
    for the record of the other.  One round of the detector aborts
    transaction 2 and nothing else. *)
Example deadlock_resolution :
  let txn := Lock.mkTxn Lock.GROWING Lock.REPEATABLE_READ ∅ ∅ in
  let m0 := Lock.mk [] [] (<[1 := txn]> (<[2 := txn]> ∅)) in
  ∃ m1 m2 m3 m4 m5,
    Lock.LockExclusive 1 (1, 0) m0 = Ok (Lock.Returned true, m1) ∧
    Lock.LockExclusive 2 (2, 0) m1 = Ok (Lock.Returned true, m2) ∧
    Lock.LockExclusive 1 (2, 0) m2 = Ok (Lock.Waiting, m3) ∧
    Lock.LockExclusive 2 (1, 0) m3 = Ok (Lock.Waiting, m4) ∧
    Lock.RunCycleDetection_round 3 2 m4 = Ok ([2], m5) ∧
    Lock.state_ <$> Lock.txn_map m5 !! 2 = Some Lock.ABORTED ∧
    Lock.state_ <$> Lock.txn_map m5 !! 1 = Some Lock.GROWING.
Proof.
  intros txn m0. do 5 eexists.
  split; [vm_compute; reflexivity|]. split; [vm_compute; reflexivity|].
  split; [vm_compute; reflexivity|]. split; [vm_compute; reflexivity|].
  split; [vm_compute; reflexivity|]. split; reflexivity.
Qed.

(** ** Buffer pool: fetching keeps the pool consistent *)

Section Pool_facts.
Context {Data : Type}.
Import BPM.
Implicit Types (b : BufferPoolManager Data) (p q : page_id_t) (f : frame_id_t).

Lemma frame_in_range f b : in_range b f → ∃ pg, frame f b = Ok pg.
Proof.
  intros [H0 Hlt]. apply lookup_lt_is_Some in Hlt as [pg Hpg].
  exists pg. apply frame_Ok. done.
Qed.

Lemma page_of_frame_found (pt : gmap page_id_t frame_id_t) f :
  page_of_frame pt f ≠ -1 → pt !! (page_of_frame pt f) = Some f.
Proof.
  unfold page_of_frame.
  destruct (list_find _ _) as [[i [p' f']]|] eqn:Hfind; [|done].
  intros _. apply list_find_Some in Hfind as (Hi & Hf & _). simpl in *. subst f'.
  apply elem_of_map_to_list. eapply list_elem_of_lookup_2, Hi.
Qed.

Lemma page_of_frame_none (pt : gmap page_id_t frame_id_t) f :
  pt !! (-1) = None → page_of_frame pt f = -1 → ∀ p, pt !! p ≠ Some f.
Proof.
  unfold page_of_frame. intros Hinv.
  destruct (list_find _ _) as [[i [p' f']]|] eqn:Hfind.
  - apply list_find_Some in Hfind as (Hi & Hf & _). simpl in *. subst f'.
    intros Heq. apply list_elem_of_lookup_2, elem_of_map_to_list in Hi.
    rewrite Heq in Hi. congruence.
  - intros _ p Hp. eapply list_find_None in Hfind.
    rewrite Forall_forall in Hfind. apply (Hfind (p, f)); [|done].
    by apply elem_of_map_to_list.
Qed.

Lemma Pin_untracked f r : LRU.wf r → f ∉ LRU.lruList r → LRU.Pin f r = r.
Proof.
  intros [_ Hsync] Hf. unfold LRU.Pin. rewrite decide_False; [done|].
  by rewrite Hsync.
Qed.

Lemma Pin_length f r :
  LRU.wf r →
  (length (LRU.lruList r) ≤ S (length (LRU.lruList (LRU.Pin f r))))%nat.
Proof.
  intros [_ Hsync]. unfold LRU.Pin. case_decide as Hin; [|lia]. simpl.
  apply Hsync in Hin. rewrite <- (erase_node_length f) by done. lia.
Qed.

Lemma Pin_subset f r x :
  LRU.wf r → x ∈ LRU.lruList (LRU.Pin f r) → x ∈ LRU.lruList r.
Proof.
  intros _. unfold LRU.Pin. case_decide; [|done]. simpl. apply erase_node_subset.
Qed.

Lemma view_mapped b p f pg :
  page_table_ b !! p = Some f → pages_ b !! Z.to_nat f = Some pg →
  view b p = data_ pg.
Proof. intros Hp Hf. unfold view. by rewrite Hp, Hf. Qed.

Lemma view_unmapped b p :
  page_table_ b !! p = None → view b p = Disk.content (disk_manager_ b) p.
Proof. intros Hp. unfold view. by rewrite Hp. Qed.

End Pool_facts.

Section Fetch.
Context {Data : Type}.
Import BPM.
Implicit Types (b : BufferPoolManager Data) (p q : page_id_t) (f : frame_id_t).

Lemma in_range_set_frame b f f' pg : in_range (set_frame f' pg b) f ↔ in_range b f.
Proof. unfold in_range, set_frame. simpl. by rewrite length_insert. Qed.

(** Taking a frame: [FindReplace] succeeds when a frame is available, and
    the frame it returns holds no page and is neither free nor tracked
    afterwards; no page changes for the clients of the pool. *)
Lemma FindReplace_ok b :
  pool_inv b → (0 < avail b)%nat →
  ∃ f b1, FindReplace b = Ok (Some f, b1) ∧ pool_inv b1 ∧ in_range b1 f ∧
    f ∉ free_list_ b1 ∧ f ∉ LRU.lruList (replacer_ b1) ∧
    (∀ p, page_table_ b1 !! p ≠ Some f) ∧
    (∀ q, view b1 q = view b q) ∧ (avail b ≤ S (avail b1))%nat ∧
    (∀ p, page_table_ b !! p = None → page_table_ b1 !! p = None).
Proof.
  intros Hinv Hav. pose proof Hinv as [Hmap Hinj Hinval Hfree Hfnd Hrep Hcap Htr Hclean].
  unfold FindReplace, avail in *.
  destruct (free_list_ b) as [|f rest] eqn:Hfl.
  - (* a victim of the replacer *)
    pose proof (Victim_wf _ Hrep) as Hv.
    destruct (last (LRU.lruList (replacer_ b))) as [f|] eqn:Hlast.
    2:{ apply last_None in Hlast. rewrite Hlast in Hav. simpl in Hav. lia. }
    destruct Hv as (r' & Hvict & Hwf' & Hl' & Hl).
    assert (LRU.capacity r' = LRU.capacity (replacer_ b)) as Hcap'.
    { unfold LRU.Victim in Hvict. case_decide; [done|]. rewrite Hlast in Hvict.
      by injection Hvict as <-. }
    rewrite Hvict. simpl.
    assert (f ∈ LRU.lruList (replacer_ b)) as Hfin.
    { rewrite Hl. apply elem_of_app. right. by left. }
    destruct (Htr f Hfin) as [Hrange _].
    assert (f ∉ LRU.lruList r') as Hfr'.
    { destruct Hrep as [Hnd _]. rewrite Hl in Hnd.
      apply NoDup_app in Hnd as (_ & Hdis & _). intros Hx. apply (Hdis f Hx). by left. }
    assert (∀ x, x ∈ LRU.lruList r' → x ∈ LRU.lruList (replacer_ b)) as Hsub.
    { intros x Hx. rewrite Hl. apply elem_of_app. by left. }
    assert (length (LRU.lruList (replacer_ b)) = S (length (LRU.lruList r'))) as Hlen.
    { rewrite Hl, length_app. simpl. lia. }
    case_decide as Hfound.
    + apply page_of_frame_found in Hfound.
      set (p0 := page_of_frame (page_table_ b) f) in *.
      destruct (frame_in_range f b Hrange) as [pg Hpg].
      assert (frame f (set_replacer r' b) = Ok pg) as -> by exact Hpg.
      simpl. apply frame_Ok in Hpg as [_ Hpg].
      eexists f, _. split; [done|].
      assert (∀ q, q ≠ p0 →
                Disk.content (disk_manager_
                  (if is_dirty_ pg
                   then set_disk (Disk.WritePage p0 (data_ pg) (disk_manager_ b))
                          (set_replacer r' b)
                   else set_replacer r' b)) q = Disk.content (disk_manager_ b) q) as Hdisk.
      { intros q Hq. destruct (is_dirty_ pg); [|done]. unfold Disk.content. simpl.
        by rewrite lookup_insert_ne. }
      assert (Disk.content (disk_manager_
                  (if is_dirty_ pg
                   then set_disk (Disk.WritePage p0 (data_ pg) (disk_manager_ b))
                          (set_replacer r' b)
                   else set_replacer r' b)) p0 = data_ pg) as Hdisk0.
      { destruct (is_dirty_ pg) eqn:Hd.
        - unfold Disk.content. simpl. by rewrite lookup_insert_eq.
        - simpl. symmetry. by eapply Hclean. }
      set (b2 := if is_dirty_ pg then _ else _) in *.
      assert (pages_ b2 = pages_ b ∧ page_table_ b2 = page_table_ b ∧
              free_list_ b2 = free_list_ b ∧ replacer_ b2 = r') as (Hp2 & Ht2 & Hf2 & Hr2).
      { unfold b2. by destruct (is_dirty_ pg). }
      split; [|split; [|split; [|split; [|split; [|split; [|split]]]]]].
      * split; simpl; rewrite ?Hp2, ?Ht2, ?Hf2, ?Hr2.
        -- intros p f0 [_ Hp]%lookup_delete_Some. unfold in_range. simpl.
           rewrite Hp2. by eapply Hmap.
        -- intros p q f0 [_ Hp]%lookup_delete_Some [_ Hq]%lookup_delete_Some. eauto.
        -- apply lookup_delete_None. by right.
        -- rewrite Hfl. by intros f0 ?%elem_of_nil.
        -- rewrite Hfl. constructor.
        -- done.
        -- by rewrite Hcap'.
        -- intros f0 Hf0. destruct (Htr f0 (Hsub _ Hf0)) as [? _].
           split; [|rewrite Hfl; apply not_elem_of_nil].
           unfold in_range. simpl. by rewrite Hp2.
        -- intros p f0 pg0 [Hne Hp]%lookup_delete_Some Hpg0 Hd.
           rewrite Hdisk by done. by eapply Hclean.
      * unfold in_range. simpl. by rewrite Hp2.
      * simpl. rewrite Hf2, Hfl. apply not_elem_of_nil.
      * simpl. by rewrite Hr2.
      * simpl. rewrite Ht2. intros p [Hne Hp]%lookup_delete_Some. apply Hne.
        by eapply Hinj.
      * intros q. unfold view at 1. simpl. rewrite Ht2, Hp2.
        destruct (decide (q = p0)) as [->|Hne].
        -- rewrite lookup_delete_eq. rewrite Hdisk0. symmetry. by eapply view_mapped.
        -- rewrite lookup_delete_ne by done. rewrite Hdisk by done. done.
      * simpl. rewrite Hf2, Hr2, Hfl, Hlen. simpl. lia.
      * simpl. rewrite Ht2. intros p Hp. apply lookup_delete_None. by right.
    + assert (page_of_frame (page_table_ b) f = -1) as Hnone.
      { destruct (decide (page_of_frame (page_table_ b) f = -1)); [done|].
        by destruct Hfound. }
      pose proof (page_of_frame_none _ _ Hinval Hnone) as Hunmapped.
      exists f, (set_replacer r' b). split; [done|].
      split; [|split; [|split; [|split; [|split; [|split; [|split]]]]]]; simpl;
        try done.
      * split; simpl;
          [done | done | done
          | rewrite Hfl; by intros f0 ?%elem_of_nil
          | rewrite Hfl; constructor
          | done
          | by rewrite Hcap'
          | intros f0 Hf0; split; [by apply Htr, Hsub | rewrite Hfl; apply not_elem_of_nil]
          | done].
      * rewrite Hfl. apply not_elem_of_nil.
      * rewrite Hfl, Hlen. simpl. lia.
  - (* a free frame *)
    exists f, (set_free_list rest b). split; [done|].
    assert (f ∈ f :: rest) as Hfin by by left.
    apply NoDup_cons in Hfnd as [Hfr Hnd].
    destruct (Hfree f Hfin) as [Hrange Hun].
    split; [|split; [|split; [|split; [|split; [|split; [|split]]]]]]; simpl;
      try done.
    + split; simpl;
        [done | done | done
        | intros f0 Hf0; apply Hfree; by right
        | done | done | done
        | intros f0 Hf0; destruct (Htr f0 Hf0) as [? Hn]; split; [done|];
          intros Hx; apply Hn; by right
        | done].
    + intros Hx. destruct (Htr f Hx) as [_ Hn]. apply Hn. by left.
Qed.

End Fetch.

Section Fetch_page.
Context {Data : Type}.
Import BPM.
Implicit Types (b : BufferPoolManager Data) (p q : page_id_t) (f : frame_id_t).

Lemma to_nat_inj_range b f f' :
  in_range b f → in_range b f' → Z.to_nat f = Z.to_nat f' → f = f'.
Proof. intros [? _] [? _] ?. lia. Qed.

(** Reading a page from disk into a frame that holds no page. *)
Lemma install_page b f pid n :
  pool_inv b → in_range b f → f ∉ free_list_ b → f ∉ LRU.lruList (replacer_ b) →
  (∀ p, page_table_ b !! p ≠ Some f) → page_table_ b !! pid = None →
  pid ≠ INVALID_PAGE_ID →
  let pg := mkPage pid n false (Disk.content (disk_manager_ b) pid) in
  let b' := set_page_table (<[pid := f]> (page_table_ b))
              (set_replacer (LRU.Pin f (replacer_ b))
                 (set_frame f pg
                    (set_disk (Disk.ReadPage pid (disk_manager_ b)).2 b))) in
  pool_inv b' ∧ (∀ q, view b' q = view b q) ∧ avail b' = avail b ∧
  pages_ b' !! Z.to_nat f = Some pg.
Proof.
  intros Hinv Hrange Hnfree Hntr Hun Hpid Hne pg b'.
  pose proof Hinv as [Hmap Hinj Hinval Hfree Hfnd Hrep Hcap Htr Hclean].
  assert (LRU.Pin f (replacer_ b) = replacer_ b) as HPin by by apply Pin_untracked.
  assert (pages_ b' !! Z.to_nat f = Some pg) as Hpgf.
  { simpl. apply list_lookup_insert_eq. apply Hrange. }
  assert (∀ f0, in_range b' f0 ↔ in_range b f0) as Hrg.
  { intros f0. unfold in_range. simpl. by rewrite length_insert. }
  assert (∀ p f0, pid ≠ p → page_table_ b !! p = Some f0 →
            pages_ b' !! Z.to_nat f0 = pages_ b !! Z.to_nat f0) as Hother.
  { intros p f0 Hp Hpf. simpl. apply list_lookup_insert_ne.
    intros Heq. apply (Hun p). rewrite Hpf. f_equal.
    symmetry. eapply to_nat_inj_range; [done|by eapply Hmap|done]. }
  split; [|split; [|split]]; [|
    |unfold avail; simpl; by rewrite HPin|done].
  - split; simpl; rewrite ?HPin.
    + intros p f0 [[-> ->]|[Hp Hpf]]%lookup_insert_Some; apply Hrg; eauto.
    + intros p q f0 [[-> ->]|[Hp Hpf]]%lookup_insert_Some
                    [[-> Hq]|[Hq Hqf]]%lookup_insert_Some; try done.
      * by destruct (Hun q).
      * subst. by destruct (Hun p).
      * eauto.
    + by rewrite lookup_insert_ne.
    + intros f0 Hf0. destruct (Hfree f0 Hf0) as [? Hunm]. split; [by apply Hrg|].
      intros p [[-> ->]|[Hp Hpf]]%lookup_insert_Some; [done|by eapply Hunm].
    + done.
    + done.
    + done.
    + intros f0 Hf0. destruct (Htr f0 Hf0). split; [by apply Hrg|done].
    + intros p f0 pg0 [[-> ->]|[Hp Hpf]]%lookup_insert_Some Hpg0 Hd.
      * assert (pg0 = pg) as -> by (simpl in Hpgf; congruence). done.
      * pose proof (Hother p f0 Hp Hpf) as Ho. simpl in Ho. rewrite Ho in Hpg0.
        by eapply Hclean.
  - intros q. destruct (decide (q = pid)) as [->|Hq].
    + rewrite (view_unmapped b pid) by done.
      erewrite view_mapped; [|simpl; apply lookup_insert_eq|exact Hpgf]. done.
    + unfold view. simpl. rewrite lookup_insert_ne by done.
      destruct (page_table_ b !! q) as [f0|] eqn:Hqf; [|done].
      pose proof (Hother q f0 (not_eq_sym Hq) Hqf) as Ho. simpl in Ho. by rewrite Ho.
Qed.

(** Fetching a page succeeds when the page is in the pool or a frame is
    available.  The pool stays consistent, every page reads to its clients as
    before, and at most one frame is no longer available. *)
Lemma FetchPageImpl_ok pid b :
  pool_inv b → pid ≠ INVALID_PAGE_ID →
  (is_Some (page_table_ b !! pid) ∨ (0 < avail b)%nat) →
  ∃ f b' pg, FetchPageImpl pid b = Ok (Some f, b') ∧ pool_inv b' ∧
    (∀ q, view b' q = view b q) ∧ (avail b ≤ S (avail b'))%nat ∧
    page_table_ b' !! pid = Some f ∧ frame f b' = Ok pg.
Proof.
  intros Hinv Hne Hav. unfold FetchPageImpl.
  destruct (page_table_ b !! pid) as [f|] eqn:Hpid.
  - pose proof Hinv as [Hmap Hinj Hinval Hfree Hfnd Hrep Hcap Htr Hclean].
    pose proof (Hmap _ _ Hpid) as Hrange.
    destruct (frame_in_range f b Hrange) as [pg Hpg]. rewrite Hpg. simpl.
    apply frame_Ok in Hpg as [Hfpos Hpg].
    set (pg' := mkPage (page_id_ pg) (pin_count_ pg + 1) (is_dirty_ pg) (data_ pg)).
    set (b' := set_replacer _ _).
    assert (pages_ b' !! Z.to_nat f = Some pg') as Hpgf.
    { simpl. apply list_lookup_insert_eq. apply Hrange. }
    assert (∀ f0, in_range b' f0 ↔ in_range b f0) as Hrg.
    { intros f0. unfold in_range. simpl. by rewrite length_insert. }
    assert (∀ x, x ∈ LRU.lruList (replacer_ b') → x ∈ LRU.lruList (replacer_ b)) as Hsub.
    { intros x. simpl. by apply Pin_subset. }
    exists f, b', pg'. split; [done|].
    split; [|split; [|split; [|split]]].
    + split; simpl.
      * intros p f0 Hp. apply Hrg. eauto.
      * done.
      * done.
      * intros f0 Hf0. destruct (Hfree f0 Hf0). split; [by apply Hrg|done].
      * done.
      * by apply Pin_wf.
      * unfold LRU.Pin. by case_decide.
      * intros f0 Hf0. destruct (Htr f0 (Hsub _ Hf0)). split; [by apply Hrg|done].
      * intros p f0 pg0 Hp Hpg0 Hd.
        destruct (decide (Z.to_nat f0 = Z.to_nat f)) as [Heq|Hneq].
        -- rewrite Heq in Hpg0.
           assert (pg0 = pg') as -> by (simpl in Hpgf; congruence).
           eapply (Hclean p f0 pg); [done| |done]. by rewrite Heq.
        -- rewrite list_lookup_insert_ne in Hpg0 by done. by eapply Hclean.
    + intros q. unfold view. simpl.
      destruct (page_table_ b !! q) as [f0|] eqn:Hqf; [|done].
      destruct (decide (Z.to_nat f0 = Z.to_nat f)) as [Heq|Hneq].
      * rewrite Heq. simpl in Hpgf. rewrite Hpgf, Hpg. done.
      * by rewrite list_lookup_insert_ne.
    + unfold avail. simpl. pose proof (Pin_length f _ Hrep). lia.
    + done.
    + apply frame_Ok. done.
  - destruct Hav as [[? [=]]|Hav].
    destruct (FindReplace_ok b Hinv Hav)
      as (f & b1 & -> & Hinv1 & Hrange & Hnfree & Hntr & Hun & Hview & Havail & Hkeep).
    simpl. destruct (frame_in_range f b1 Hrange) as [pg1 Hpg1]. rewrite Hpg1. simpl.
    destruct (install_page b1 f pid (pin_count_ pg1 + 1))
      as (Hinv' & Hview' & Hav' & Hpgf); auto.
    eexists f, _, _. split; [done|]. split; [exact Hinv'|].
    split; [|split; [|split]].
    + intros q. etrans; [apply Hview'|]. apply Hview.
    + etrans; [exact Havail|]. apply le_n_S, Nat.eq_le_incl. symmetry. exact Hav'.
    + simpl. apply lookup_insert_eq.
    + apply frame_Ok. split; [apply Hrange|exact Hpgf].
Qed.

End Fetch_page.

Section Unpin_page.
Context {Data : Type}.
Import BPM.
Implicit Types (b : BufferPoolManager Data) (p q : page_id_t) (f : frame_id_t).

(** On a consistent pool [UnpinPageImpl] returns, and it changes neither the
    page table nor the disk nor the data of a frame. *)
Lemma UnpinPageImpl_ok pid is_dirty b :
  pool_inv b →
  ∃ r b', UnpinPageImpl pid is_dirty b = Ok (r, b') ∧
    (∀ q, view b' q = view b q) ∧ page_table_ b' = page_table_ b ∧
    disk_manager_ b' = disk_manager_ b.
Proof.
  intros Hinv. unfold UnpinPageImpl.
  destruct (page_table_ b !! pid) as [f|] eqn:Hpid; [|by eexists _, _].
  pose proof (inv_mapped _ Hinv _ _ Hpid) as Hrange.
  destruct (frame_in_range f b Hrange) as [pg Hpg]. rewrite Hpg. simpl.
  apply frame_Ok in Hpg as [Hfpos Hpg].
  case_decide; [by eexists _, _|].
  set (b1 := set_frame f _ b).
  assert (∀ q, view b1 q = view b q) as Hview.
  { intros q. unfold view. simpl.
    destruct (page_table_ b !! q) as [f0|] eqn:Hqf; [|done].
    destruct (decide (Z.to_nat f0 = Z.to_nat f)) as [Heq|Hneq].
    - rewrite Heq, Hpg. rewrite list_lookup_insert_eq; [done|]. apply Hrange.
    - by rewrite list_lookup_insert_ne. }
  case_decide; [|by eexists _, _].
  assert (is_Ok (LRU.Unpin f (replacer_ b))) as [r Hr].
  { unfold LRU.Unpin. case_decide; [by eexists|].
    case_decide as Hcap; [|by eexists].
    destruct (LRU.lruList (replacer_ b)) as [|d rest] eqn:Hl; [|by eexists].
    pose proof (inv_capacity _ Hinv). unfold LRU.Size in Hcap. rewrite Hl in Hcap.
    simpl in Hcap. lia. }
  rewrite Hr. simpl. by eexists _, _.
Qed.

(** A fetch leaves alone the data of the frames that are neither free nor
    tracked by the replacer. *)
Lemma FetchPageImpl_keeps_frame pid b f b' f0 :
  FetchPageImpl pid b = Ok (Some f, b') →
  0 ≤ f0 → f0 ∉ free_list_ b → f0 ∉ LRU.lruList (replacer_ b) →
  data_ <$> pages_ b' !! Z.to_nat f0 = data_ <$> pages_ b !! Z.to_nat f0.
Proof.
  intros Hfetch Hpos Hnfree Hntr. unfold FetchPageImpl in Hfetch.
  destruct (page_table_ b !! pid) as [f1|] eqn:Hpid.
  - inv_bind Hfetch. injection Hfetch as <- <-. simpl.
    apply frame_Ok in Ha as [Hf1 Hpg].
    destruct (decide (Z.to_nat f0 = Z.to_nat f1)) as [Heq|Hneq].
    + rewrite Heq, Hpg. rewrite list_lookup_insert_eq; [done|].
      by eapply lookup_lt_Some.
    + by rewrite list_lookup_insert_ne.
  - inv_bind Hfetch. destruct a as [[fr|] b1]; [|done].
    inv_bind Hfetch. injection Hfetch as <- <-. simpl.
    apply frame_Ok in Ha0 as [Hfr Hpg].
    assert (pages_ b1 = pages_ b ∧
            (fr ∈ free_list_ b ∨ fr ∈ LRU.lruList (replacer_ b))) as [Hpages Hin].
    { unfold FindReplace in Ha. destruct (free_list_ b) as [|x rest] eqn:Hfl.
      - apply bind_Ok in Ha as ([[v|] r] & Hvict & Ha); [|simpl in Ha; congruence].
        simpl in Ha.
        assert (v ∈ LRU.lruList (replacer_ b)) as Hv.
        { unfold LRU.Victim in Hvict.
          destruct (decide (LRU.lruMap (replacer_ b) = ∅)); [congruence|].
          destruct (last _) as [y|] eqn:Hlast; [|done]. injection Hvict as <- <-.
          apply last_Some in Hlast as [l' ->]. apply elem_of_app. right. by left. }
        case_decide.
        + apply bind_Ok in Ha as (vpg & Hvpg & Ha). injection Ha as <- <-.
          split; [|by right]. by destruct (is_dirty_ vpg).
        + injection Ha as <- <-. split; [done|by right].
      - injection Ha as <- <-. split; [done|]. left. by left. }
    rewrite Hpages. rewrite list_lookup_insert_ne; [done|].
    intros Heq. assert (f0 = fr) as -> by lia. by destruct Hin.
Qed.

End Unpin_page.

(** ** B+tree: calls on a state *)

Section M_facts.
Import BTree.
Context {S A B : Type}.

Lemma M_bind_Ok (m : M S A) (k : A → M S B) s a s' :
  m s = Ok (a, s') → (m ≫= k) s = k a s'.
Proof. intros H. unfold mbind, M_bind. by rewrite H. Qed.

Lemma M_bind_inv (m : M S A) (k : A → M S B) s y :
  (m ≫= k) s = Ok y → ∃ a s', m s = Ok (a, s') ∧ k a s' = Ok y.
Proof.
  unfold mbind, M_bind. destruct (m s) as [[a s']| | |]; [eauto|done..].
Qed.

End M_facts.

Section Tree_facts.
Import BTree.
Context {KeyType : Type}.
Variable comparator : KeyType → KeyType → Z.
Implicit Types (b : BPM.BufferPoolManager (PageData KeyType)) (t : BPlusTree KeyType).

Lemma pool_Ok {A} (m : M (BPM.BufferPoolManager (PageData KeyType)) A) t a b' :
  m (buffer_pool_manager_ t) = Ok (a, b') → pool m t = Ok (a, set_pool b' t).
Proof. intros H. unfold pool. by rewrite H. Qed.

Lemma pool_inv_Ok {A} (m : M (BPM.BufferPoolManager (PageData KeyType)) A) t a t' :
  pool m t = Ok (a, t') →
  ∃ b', m (buffer_pool_manager_ t) = Ok (a, b') ∧ t' = set_pool b' t.
Proof.
  unfold pool. destruct (m (buffer_pool_manager_ t)) as [[a' b']| | |]; simpl; [|done..].
  intros [= <- <-]. eauto.
Qed.

Lemma GetData_Ok f b pg :
  BPM.frame f b = Ok pg → GetData f b = Ok (BPM.data_ pg, b).
Proof. intros H. unfold GetData. by rewrite H. Qed.

Lemma as_leaf_Ok f b pg l :
  BPM.frame f b = Ok pg → BPM.data_ pg = LeafData l → as_leaf f b = Ok (l, b).
Proof.
  intros H Hd. unfold as_leaf. erewrite M_bind_Ok; [|by apply GetData_Ok].
  by rewrite Hd.
Qed.

Lemma as_internal_Ok f b pg i :
  BPM.frame f b = Ok pg → BPM.data_ pg = InternalData i → as_internal f b = Ok (i, b).
Proof.
  intros H Hd. unfold as_internal. erewrite M_bind_Ok; [|by apply GetData_Ok].
  by rewrite Hd.
Qed.

Lemma IsLeafPage_leaf f b pg l :
  BPM.frame f b = Ok pg → BPM.data_ pg = LeafData l → IsLeafPage f b = Ok (true, b).
Proof.
  intros H Hd. unfold IsLeafPage. erewrite M_bind_Ok; [|by apply GetData_Ok].
  by rewrite Hd.
Qed.

Lemma IsLeafPage_internal f b pg i :
  BPM.frame f b = Ok pg → BPM.data_ pg = InternalData i → IsLeafPage f b = Ok (false, b).
Proof.
  intros H Hd. unfold IsLeafPage. erewrite M_bind_Ok; [|by apply GetData_Ok].
  by rewrite Hd.
Qed.

Lemma lift_Ok {S A} (r : result A) (a : A) (s : S) : r = Ok a → lift r s = Ok (a, s).
Proof. intros ->. reflexivity. Qed.

Lemma leaf_of_ext levels b b' key p :
  (∀ q, BPM.view b' q = BPM.view b q) →
  leaf_of comparator levels b' key p = leaf_of comparator levels b key p.
Proof.
  intros Hv. revert p. induction levels as [|n IH]; intros p; simpl; rewrite Hv; [done|].
  case_decide; [done|]. destruct (BPM.view b p); try done.
  destruct (Lookup_internal _ _ _); try done.
Qed.

Lemma leaf_of_valid levels b key p x :
  leaf_of comparator levels b key p = Some x → p ≠ INVALID_PAGE_ID.
Proof. destruct levels; simpl; by case_decide. Qed.

(** The descent of [FindLeafPageRW] from a page of the pool follows the
    search path of the key and ends on its leaf, when one frame is available
    for each level below. *)
Lemma FindLeafPageRW_loop_ok levels : ∀ fuel key b p f pg lid leaf,
  BPM.pool_inv b → BPM.page_table_ b !! p = Some f → BPM.frame f b = Ok pg →
  leaf_of comparator levels b key p = Some (lid, leaf) →
  (levels ≤ BPM.avail b)%nat → (levels ≤ fuel)%nat →
  ∃ f' b' pg',
    FindLeafPageRW_loop comparator fuel key false f b = Ok (f', b') ∧
    BPM.pool_inv b' ∧ (∀ q, BPM.view b' q = BPM.view b q) ∧
    BPM.page_table_ b' !! lid = Some f' ∧ BPM.frame f' b' = Ok pg' ∧
    BPM.data_ pg' = LeafData leaf.
Proof.
  induction levels as [|n IH]; intros fuel key b p f pg lid leaf Hinv Hp Hf Hleaf Hav Hfuel.
  - simpl in Hleaf. case_decide; [done|].
    pose proof Hf as [_ Hpg]%frame_Ok.
    rewrite (view_mapped b p f pg Hp Hpg) in Hleaf.
    destruct (BPM.data_ pg) as [|l| |] eqn:Hd; try done. injection Hleaf as <- <-.
    exists f, b, pg. split_and!; try done.
    destruct fuel; simpl.
    all: erewrite M_bind_Ok; [|by eapply IsLeafPage_leaf]; reflexivity.
  - simpl in Hleaf. case_decide; [done|].
    pose proof Hf as [_ Hpg]%frame_Ok.
    rewrite (view_mapped b p f pg Hp Hpg) in Hleaf.
    destruct (BPM.data_ pg) as [| |i|] eqn:Hd; try done.
    destruct (Lookup_internal comparator key i) as [child| | |] eqn:Hlook; try done.
    destruct fuel as [|fuel]; [lia|].
    destruct (FetchPageImpl_ok child b) as (fc & b1 & pgc & Hfetch & Hinv1 & Hview1 & Hav1 & Hpc & Hfc);
      [done|by eapply leaf_of_valid|right; lia|].
    destruct (IH fuel key b1 child fc pgc lid leaf) as (f' & b' & pg' & Hloop & Hinv' & Hview' & Hl' & Hf' & Hd');
      try done; try lia.
    { by rewrite (leaf_of_ext n b b1). }
    exists f', b', pg'. split; [|split; [done|split; [|done]]].
    + simpl.
      erewrite M_bind_Ok; [|by eapply IsLeafPage_internal]. simpl.
      erewrite M_bind_Ok; [|by eapply as_internal_Ok].
      erewrite M_bind_Ok; [|by apply lift_Ok].
      erewrite M_bind_Ok; [|exact Hfetch].
      erewrite M_bind_Ok; [|reflexivity].
      exact Hloop.
    + intros q. by rewrite Hview', Hview1.
Qed.

End Tree_facts.

Section Tree_claims.
Import BTree.
Context {KeyType : Type}.
Variable comparator : KeyType → KeyType → Z.
Variable RID_default : RID.
Implicit Types (b : BPM.BufferPoolManager (PageData KeyType)) (t : BPlusTree KeyType).

(** [FindLeafPageRW] returns the leaf of the key, pinned in a frame, when the
    pool has a frame available for every page of the path. *)
Lemma FindLeafPageRW_ok t key op levels fuel lid leaf :
  BPM.pool_inv (buffer_pool_manager_ t) →
  leaf_of comparator levels (buffer_pool_manager_ t) key (root_page_id_ t) = Some (lid, leaf) →
  (levels < BPM.avail (buffer_pool_manager_ t))%nat → (levels ≤ fuel)%nat →
  ∃ f' b' pg',
    FindLeafPageRW comparator fuel key op false t = Ok (f', set_pool b' t) ∧
    BPM.pool_inv b' ∧ (∀ q, BPM.view b' q = BPM.view (buffer_pool_manager_ t) q) ∧
    BPM.page_table_ b' !! lid = Some f' ∧ BPM.frame f' b' = Ok pg' ∧
    BPM.data_ pg' = LeafData leaf.
Proof.
  intros Hinv Hleaf Hav Hfuel.
  destruct (FetchPageImpl_ok (root_page_id_ t) (buffer_pool_manager_ t))
    as (f0 & b1 & pg0 & Hfetch & Hinv1 & Hview1 & Hav1 & Hp0 & Hf0);
    [done|by eapply leaf_of_valid|right; lia|].
  destruct (FindLeafPageRW_loop_ok comparator levels fuel key b1 (root_page_id_ t) f0 pg0 lid leaf)
    as (f' & b' & pg' & Hloop & Hinv' & Hview' & Hl' & Hf' & Hd'); try done; try lia.
  { by rewrite (leaf_of_ext comparator levels (buffer_pool_manager_ t) b1). }
  exists f', b', pg'. split_and!; try done.
  - unfold FindLeafPageRW.
    erewrite M_bind_Ok; [|reflexivity].
    erewrite M_bind_Ok; [|apply pool_Ok; exact Hfetch].
    erewrite M_bind_Ok; [|reflexivity].
    erewrite pool_Ok; [reflexivity|exact Hloop].
  - intros q. by rewrite Hview', Hview1.
Qed.



End Tree_claims.

Section Pool_create.
Context {Data : Type}.

(** A new pool with at least one frame is consistent. *)
Lemma pool_inv_create (n : nat) (d : Disk.DiskManager Data) :
  (0 < n)%nat → BPM.pool_inv (BPM.create n d).
Proof.
  intros Hn. split; simpl; try done.
  - intros f [i [-> Hi]]%list_elem_of_fmap. apply elem_of_seq in Hi.
    split; [|done]. unfold BPM.in_range. simpl. rewrite length_replicate. lia.
  - apply NoDup_fmap; [intros ?? ?; lia|]. apply NoDup_seq.
  - split; simpl; [constructor|]. intros f. set_solver.
  - intros f ?%elem_of_nil. done.
Qed.

End Pool_create.



(** ** The iterator *)

Section Iterator_claims.
Import BTree.
Context {KeyType : Type}.
Implicit Types (b : BPM.BufferPoolManager (PageData KeyType)) (it : IndexIterator).

(** What the iterator does: it takes page id 0 as the end of the chain of
    leaves.  [isEnd] is true exactly at index = size of a leaf whose next page
    id is 0; [operator++] that brings the index to the size of a leaf whose
    next page id is not 0 fetches that page and moves to its index 0, and in
    every other case only increments the index.  The leaf of the iterator is
    in a frame that is neither free nor tracked by the replacer, as a pinned
    page is. *)
Lemma iterator_end_is_page_zero b it f pg leaf :
  leaf_page_ it = Some f → BPM.frame f b = Ok pg → BPM.data_ pg = LeafData leaf →
  (∃ r, isEnd it b = Ok (r, b) ∧
        (r = true ↔ index_ it = GetSize_leaf leaf ∧ next_page_id_ leaf = 0)) ∧
  (index_ it + 1 = GetSize_leaf leaf → next_page_id_ leaf ≠ 0 →
   BPM.pool_inv b → next_page_id_ leaf ≠ INVALID_PAGE_ID →
   f ∉ BPM.free_list_ b → f ∉ LRU.lruList (BPM.replacer_ b) →
   (is_Some (BPM.page_table_ b !! next_page_id_ leaf) ∨ (0 < BPM.avail b)%nat) →
   ∃ f' b', next it b = Ok (mkIterator (Some f') 0, b') ∧
            BPM.page_table_ b' !! next_page_id_ leaf = Some f' ∧
            ∀ q, BPM.view b' q = BPM.view b q) ∧
  (¬ (index_ it + 1 = GetSize_leaf leaf ∧ next_page_id_ leaf ≠ 0) →
   next it b = Ok (mkIterator (Some f) (index_ it + 1), b)).
Proof.
  intros Hit Hf Hd. split; [|split].
  - eexists. split.
    + unfold isEnd. rewrite Hit.
      erewrite M_bind_Ok; [|reflexivity].
      erewrite M_bind_Ok; [|by eapply as_leaf_Ok]. reflexivity.
    + rewrite andb_true_iff, !bool_decide_eq_true. tauto.
  - intros Hidx Hnext Hinv Hvalid Hnfree Hntr Hav.
    destruct (FetchPageImpl_ok (next_page_id_ leaf) b)
      as (f' & b1 & pg' & Hfetch & Hinv1 & Hview1 & _ & Hp' & _); try done.
    pose proof Hf as [Hfpos Hpg]%frame_Ok.
    pose proof (FetchPageImpl_keeps_frame _ _ _ _ f Hfetch Hfpos Hnfree Hntr) as Hkeep.
    rewrite Hpg in Hkeep. simpl in Hkeep.
    destruct (BPM.pages_ b1 !! Z.to_nat f) as [pg1|] eqn:Hpg1; [|done].
    injection Hkeep as Hd1. rewrite Hd in Hd1.
    assert (BPM.frame f b1 = Ok pg1) as Hf1 by by apply frame_Ok.
    destruct (UnpinPageImpl_ok (page_id_ (leaf_header leaf)) true b1 Hinv1)
      as (r & b2 & Hunpin & Hview2 & Hpt2 & _).
    exists f', b2. split; [|split].
    + unfold next. simpl. rewrite Hit.
      erewrite M_bind_Ok; [|reflexivity].
      erewrite M_bind_Ok; [|by eapply as_leaf_Ok].
      rewrite Hidx, bool_decide_eq_true_2 by done.
      rewrite bool_decide_eq_true_2 by done. simpl.
      erewrite M_bind_Ok; [|exact Hfetch].
      erewrite M_bind_Ok; [|by eapply as_leaf_Ok].
      erewrite M_bind_Ok; [|exact Hunpin]. reflexivity.
    + by rewrite Hpt2.
    + intros q. by rewrite Hview2, Hview1.
  - intros Hstay. unfold next. simpl. rewrite Hit.
    erewrite M_bind_Ok; [|reflexivity].
    erewrite M_bind_Ok; [|by eapply as_leaf_Ok].
    destruct (bool_decide (index_ it + 1 = GetSize_leaf leaf)) eqn:E1;
      destruct (bool_decide (next_page_id_ leaf ≠ 0)) eqn:E2; simpl; try reflexivity.
    apply bool_decide_eq_true in E1, E2. by destruct Hstay.
Qed.

End Iterator_claims.

(** Leaf 1 is pinned in frame 0 and has leaf 2, on disk, as next leaf: at
    index 0 of 1 the iterator is not at the end, and [operator++] moves to
    index 0 of leaf 2. *)
Example iterator_moves_to_next_leaf :
  let leaf1 := BTree.mkLeaf (BTree.mkHeader 1 INVALID_PAGE_ID 3) 2 [(7, (7, 0))] in
  let leaf2 := BTree.mkLeaf (BTree.mkHeader 2 INVALID_PAGE_ID 3) 0 [(8, (8, 0))] in
  let disk := Disk.mk BTree.Blank
                (<[1 := BTree.LeafData leaf1]> (<[2 := BTree.LeafData leaf2]> ∅)) 3 [] in
  let b : BPM.BufferPoolManager (BTree.PageData Z) :=
    BPM.mk 2 [BPM.mkPage 1 1 false (BTree.LeafData leaf1);
              BPM.mkPage INVALID_PAGE_ID 0 false BTree.Blank]
      (<[1 := 0]> ∅) [1] (LRU.create 2)
      (Disk.mk BTree.Blank
         (<[1 := BTree.LeafData leaf1]> (<[2 := BTree.LeafData leaf2]> ∅)) 3
         [Disk.EvRead 1]) in
  let it := BTree.mkIterator (Some 0) 0 in
  BPM.FetchPageImpl 1 (BPM.create 2 disk) = Ok (Some 0, b) ∧
  (∃ r, BTree.isEnd it b = Ok (r, b) ∧ r ≠ true) ∧
  (∃ f' b', BTree.next it b = Ok (BTree.mkIterator (Some f') 0, b') ∧
            BPM.page_table_ b' !! 2 = Some f' ∧
            BPM.view b' 2 = BTree.LeafData leaf2).
Proof.
  intros leaf1 leaf2 disk b it.
  assert (BPM.FetchPageImpl 1 (BPM.create 2 disk) = Ok (Some 0, b)) as Hfetch
    by (vm_compute; reflexivity).
  assert (BPM.pool_inv b) as Hinv.
  { destruct (FetchPageImpl_ok 1 (BPM.create 2 disk)) as (f & b' & pg & H & Hinv & _).
    - apply pool_inv_create. lia.
    - done.
    - right. vm_compute. lia.
    - rewrite Hfetch in H. by injection H as _ <-. }
  destruct (iterator_end_is_page_zero b it 0
              (BPM.mkPage 1 1 false (BTree.LeafData leaf1)) leaf1)
    as ((r & HisEnd & Hr) & Hnext & _); try reflexivity.
  split; [exact Hfetch|]. split.
  - exists r. split; [exact HisEnd|]. intros Ht. apply Hr in Ht as [_ Ht]. done.
  - destruct Hnext as (f' & b' & Hn & Hpt & Hview); try done.
    + simpl. set_solver.
    + simpl. set_solver.
    + right. vm_compute. lia.
    + exists f', b'. split; [exact Hn|]. split; [exact Hpt|]. rewrite Hview. reflexivity.
Qed.

(** C5 (the code departs from the claim): in a pool of three frames the
    header page is allocated and a key is inserted into the empty tree.  The
    only leaf, page 1, has [INVALID_PAGE_ID] as next page id.  The iterator
    that [end] returns sits at index 1, the size of that leaf, and [isEnd]
    returns false for it; [operator++] from index 0 of the leaf does not stop
    at its end either: it fetches page [INVALID_PAGE_ID] and moves to index 0
    of the frame it gets. *)
Theorem iterator_misses_end_of_chain :
  let cmp := λ a b : Z, a - b in
  let b0 : BPM.BufferPoolManager (BTree.PageData Z) :=
    BPM.create 3 (Disk.create BTree.Blank) in
  ∃ b1 b2 t1 t2 leaf b3 it' b4,
    BPM.NewPageImpl b0 = Ok (Some (HEADER_PAGE_ID, 0), b1) ∧
    BPM.UnpinPageImpl HEADER_PAGE_ID true b1 = Ok (true, b2) ∧
    BTree.Insert cmp 1 7 (7, 0) (BTree.create "idx" b2 3 3) = Ok (true, t1) ∧
    BTree.end_ 1 t1 = Ok (BTree.mkIterator (Some 1) 1, t2) ∧
    BTree.as_leaf 1 (BTree.buffer_pool_manager_ t2) = Ok (leaf, b3) ∧
    BTree.next_page_id_ leaf = INVALID_PAGE_ID ∧
    BTree.GetSize_leaf leaf = 1 ∧
    BTree.isEnd (BTree.mkIterator (Some 1) 1) b3 = Ok (false, b3) ∧
    BTree.next (BTree.mkIterator (Some 1) 0) b3 = Ok (it', b4) ∧
    BTree.index_ it' = 0 ∧
    BPM.page_table_ b4 !! INVALID_PAGE_ID = BTree.leaf_page_ it'.
Proof.
  intros cmp b0. do 8 eexists.
  split; [vm_compute; reflexivity|]. split; [vm_compute; reflexivity|].
  split; [vm_compute; reflexivity|]. split; [vm_compute; reflexivity|].
  split; [vm_compute; reflexivity|]. split; [reflexivity|].
  split; [reflexivity|]. split; [vm_compute; reflexivity|].
  split; [vm_compute; reflexivity|]. split; reflexivity.
Qed.
